(** * jmt: translation of a treefmt configuration into a jj fix configuration

    Shallow embedding of the translation engine of [jmt/__main__.py]:
    the static tool tables, [glob_to_jj_pattern], [get_inline_command],
    [get_stdin_command], [to_toml_array] and [generate_jj_config], with
    [list_tools], [parse_args], the [--only] loop of [main] and the removal
    of the old section in [write_jj_config].

    Python [str] values are modelled as [string] (the UTF-8 bytes); every
    operation used here ([startswith], [==], [in], [join], [replace] of an
    ASCII character, splitting a path at [/]) acts the same on bytes and on
    code points.  Python [set]s are [gset string], [dict]s are [gmap]. *)

From stdpp Require Import gmap strings list sorting.
From Stdlib Require Import Ascii String DecimalString.

Open Scope string_scope.
Open Scope list_scope.

(** ** Static tables (module level of the source) *)

Module Tables.

(** [EXCLUDED_TOOLS: set[str] = set()] *)
Definition EXCLUDED_TOOLS : gset string := ∅.

Definition PASSTHROUGH_LINTERS : gset string :=
  {[ "shellcheck"; "statix" ]}.

Definition STDIN_ARGS : gmap string (list string) :=
  list_to_map
    [ ("yamlfmt", ["-"]);
      ("keep-sorted", ["-"]);
      ("tofu", ["-"]);
      ("terraform", ["-"]);
      ("prettier", ["--stdin-filepath=$path"]);
      ("taplo", ["-"]);
      ("ruff", ["--stdin-filename=input.py"]);
      ("mdformat", ["-"]);
      ("shfmt", ["-"]);
      ("typstyle", []) ].

Definition NEEDS_WRAPPER : gset string :=
  {[ "deadnix"; "ruff-isort"; "ruff-check" ]}.

Definition INPLACE_SHORT_FLAG : gset string :=
  {[ "typstyle" ]}.

(** [ext_map], local to [get_inline_command]. *)
Definition ext_map : gmap string string :=
  list_to_map
    [ ("deadnix", ".nix");
      ("statix", ".nix");
      ("shellcheck", ".sh");
      ("ruff-isort", ".py");
      ("ruff-check", ".py") ].

End Tables.

Export Tables.

(** ** Strings and paths *)

(** The double quote character, as a one-character string. *)
Definition dq : string := String (ascii_of_nat 34) EmptyString.

(** The backslash character, as a one-character string. *)
Definition bslash : string := String (ascii_of_nat 92) EmptyString.

(** [s.split(sep)] for a one-character separator: the pieces between the
    occurrences of [sep]; never the empty list. *)
Fixpoint split_on (sep : ascii) (s : string) : list string :=
  match s with
  | EmptyString => [EmptyString]
  | String c s' =>
      if Ascii.eqb c sep then EmptyString :: split_on sep s'
      else match split_on sep s' with
           | [] => [String c EmptyString]
           | p :: ps => String c p :: ps
           end
  end.

(** [Path(command).name] on a POSIX path: pathlib keeps the components that
    are neither empty nor a single dot, and [name] is the last of them, the
    empty string when there is none. *)
Definition path_parts (p : string) : list string :=
  filter (λ x, x ≠ EmptyString ∧ x ≠ ".") (split_on "/"%char p).

Definition path_name (p : string) : string :=
  default EmptyString (last (path_parts p)).

(** ** Pattern resolver *)

Definition glob_to_jj_pattern (pattern : string) : string :=
  if String.prefix "**/" pattern then "glob:'" +:+ pattern +:+ "'"
  else if String.prefix "*." pattern then "glob:'**/" +:+ pattern +:+ "'"
  else "glob:'" +:+ pattern +:+ "'".

(** ** Command synthesizer *)

(** The process environment ([os.environ]) is a finite map from variable
    names to values. *)
Definition mktemp_cmd (env : gmap string string) : string :=
  default "mktemp" (env !! "JMT_MKTEMP").

(** [[opt for opt in options if opt not in xs]] *)
Definition without (xs : list string) (options : list string) : list string :=
  filter (λ opt, opt ∉ xs) options.

(** [filtered_opts] of [get_inline_command]. *)
Definition inline_filtered_opts (options : list string) : list string :=
  without ["-w"; "--write"] options.

(** The shell word written [$t] between double quotes. *)
Definition quoted_t : string := dq +:+ "$t" +:+ dq.

(** [" ".join(f'"{opt}"' for opt in filtered_opts)] *)
Definition opts_str (filtered_opts : list string) : string :=
  String.concat " " (map (λ opt, dq +:+ opt +:+ dq) filtered_opts).

Definition get_inline_command (env : gmap string string)
    (name command : string) (options : list string) (mode : string)
    : list string :=
  let filtered_opts := inline_filtered_opts options in
  let ext := default EmptyString (ext_map !! name) in
  let script :=
    if decide (mode = "passthrough") then
      "t=$(" +:+ mktemp_cmd env +:+ " --suffix=" +:+ ext +:+ "); cat >"
        +:+ quoted_t +:+ "; " +:+ command +:+ " " +:+ opts_str filtered_opts
        +:+ " " +:+ quoted_t +:+ " >&2 || true; cat " +:+ quoted_t
        +:+ "; rm " +:+ quoted_t
    else
      "t=$(" +:+ mktemp_cmd env +:+ " --suffix=" +:+ ext +:+ "); cat >"
        +:+ quoted_t +:+ "; " +:+ command +:+ " " +:+ opts_str filtered_opts
        +:+ " " +:+ quoted_t +:+ " >/dev/null 2>&1 || true; cat " +:+ quoted_t
        +:+ "; rm " +:+ quoted_t
  in
  ["bash"; "-c"; script].

(** [exclude] of [get_stdin_command], after the conditional [append]. *)
Definition stdin_exclude (cmd_name : string) : list string :=
  let exclude := ["-w"; "--write"; "-e"; "--edit"; "--fix"; "--inplace"] in
  if decide (cmd_name ∈ INPLACE_SHORT_FLAG) then (exclude ++ ["-i"])%list else exclude.

(** [filtered_opts] of [get_stdin_command]. *)
Definition stdin_filtered_opts (cmd_name : string) (options : list string)
    : list string :=
  without (stdin_exclude cmd_name) options.

Definition get_stdin_command (env : gmap string string)
    (name command : string) (options : list string)
    (wrapper_type : option string) : list string :=
  let cmd_name := path_name command in
  if decide (wrapper_type = Some "edit" ∧ name ∈ NEEDS_WRAPPER) then
    get_inline_command env name command options "edit"
  else if decide (wrapper_type = Some "passthrough" ∧ name ∈ PASSTHROUGH_LINTERS) then
    get_inline_command env name command options "passthrough"
  else
    let filtered_opts := stdin_filtered_opts cmd_name options in
    let base_cmd := command :: filtered_opts in
    match STDIN_ARGS !! cmd_name with
    | Some args => (base_cmd ++ args)%list
    | None =>
        if decide ("fmt" ∈ filtered_opts ∧ cmd_name ∈ ["tofu"; "terraform"])
        then (base_cmd ++ ["-"])%list
        else base_cmd
    end.

(** The wrapper type that [generate_jj_config] passes for a tool name. *)
Definition wrapper_type_of (name : string) : option string :=
  if decide (name ∈ NEEDS_WRAPPER) then Some "edit"
  else if decide (name ∈ PASSTHROUGH_LINTERS) then Some "passthrough"
  else None.

(** The three execution modes of the specification, read off the two
    membership tests above. *)
Inductive ExecutionMode := DirectStdin | WrappedEdit | WrappedPassthrough.

Definition classify (name : string) : ExecutionMode :=
  match wrapper_type_of name with
  | None => DirectStdin
  | Some w => if decide (w = "edit") then WrappedEdit else WrappedPassthrough
  end.

(** ** Serializer *)

(** [item.replace(c, r)] for a one-character [c]. *)
Fixpoint replace_char (c : ascii) (r : string) (item : string) : string :=
  match item with
  | EmptyString => EmptyString
  | String a item' =>
      (if Ascii.eqb a c then r else String a EmptyString)
        +:+ replace_char c r item'
  end.

Definition to_toml_array (items : list string) : string :=
  let escaped :=
    map (λ item,
           let item := replace_char (ascii_of_nat 92) (bslash +:+ bslash) item in
           let item := replace_char (ascii_of_nat 34) (bslash +:+ dq) item in
           dq +:+ item +:+ dq) items in
  "[" +:+ String.concat ", " escaped +:+ "]".

(** ** Input shape

    One table of the parsed treefmt.toml per tool; a key that is absent from
    the table is [None] (the source reads every key with [dict.get] and a
    default). *)
Record ToolConfig := {
  cfg_command : option string;
  cfg_options : option (list string);
  cfg_includes : option (list string);
  cfg_excludes : option (list string)
}.

Record GlobalConfig := {
  glb_excludes : option (list string)
}.

Record TreefmtConfig := {
  formatter : option (gmap string ToolConfig);
  global : option GlobalConfig
}.

(** ** Output of the translation: one rule per retained tool. *)
Record ResolvedRule := {
  rule_name : string;
  rule_command : list string;
  rule_patterns : list string
}.

(** [sorted(formatters.items())]: the items in increasing order of their
    key (keys of a dict are pairwise different, so the values never take
    part in a comparison). *)
Definition item_le (a b : string * ToolConfig) : Prop :=
  String.leb a.1 b.1 = true.

#[global] Instance item_le_dec : RelDecision item_le.
Proof. intros a b. unfold item_le. apply _. Defined.

Definition sorted_items (formatters : gmap string ToolConfig)
    : list (string * ToolConfig) :=
  merge_sort item_le (map_to_list formatters).

(** The loop over [includes] in [generate_jj_config] that fills [patterns]. *)
Definition convert_patterns (includes excludes global_excludes : list string)
    : list string :=
  map (λ inc,
         let base_pattern := glob_to_jj_pattern inc in
         let all_excludes := (excludes ++ global_excludes)%list in
         if decide (all_excludes = []) then base_pattern
         else
           let exclude_patterns :=
             String.concat " ~ " (map glob_to_jj_pattern all_excludes) in
           "(" +:+ base_pattern +:+ " ~ " +:+ exclude_patterns +:+ ")")
      includes.

(** [only_tools is not None and name not in only_tools] *)
Definition skipped_by_only (only_tools : option (gset string)) (name : string)
    : bool :=
  match only_tools with
  | Some only => bool_decide (name ∉ only)
  | None => false
  end.

(** One iteration of the loop of [generate_jj_config]: [None] is [continue],
    [Some] carries what the four [lines.append] calls print.  The static
    exclusion set is a parameter here; the program runs with
    [EXCLUDED_TOOLS].  ([debug] only writes to the diagnostic stream when
    [JMT_DEBUG] is set and is left out.) *)
Definition tool_rule_with (excluded : gset string) (env : gmap string string)
    (global_excludes : list string) (only_tools : option (gset string))
    (name : string) (config : ToolConfig) : option ResolvedRule :=
  if decide (name ∈ excluded) then None
  else if skipped_by_only only_tools name then None
  else
    let command := default EmptyString (cfg_command config) in
    if decide (command = EmptyString) then None
    else
      let includes := default [] (cfg_includes config) in
      if decide (includes = []) then None
      else
        let options := default [] (cfg_options config) in
        let excludes := default [] (cfg_excludes config) in
        let wrapper_type := wrapper_type_of name in
        let cmd := get_stdin_command env name command options wrapper_type in
        let patterns := convert_patterns includes excludes global_excludes in
        Some {| rule_name := name; rule_command := cmd; rule_patterns := patterns |}.

(** [treefmt_config.get("formatter", {})] *)
Definition formatters_of (treefmt_config : TreefmtConfig)
    : gmap string ToolConfig :=
  default ∅ (formatter treefmt_config).

Definition resolved_rules_with (excluded : gset string)
    (env : gmap string string) (treefmt_config : TreefmtConfig)
    (only_tools : option (gset string)) : list ResolvedRule :=
  let formatters := formatters_of treefmt_config in
  let global_excludes :=
    default [] (glb_excludes (default {| glb_excludes := None |}
                                      (global treefmt_config))) in
  omap (λ item, tool_rule_with excluded env global_excludes only_tools item.1 item.2)
       (sorted_items formatters).

Definition resolved_rules := resolved_rules_with EXCLUDED_TOOLS.

(** The line feed, as a one-character string. *)
Definition nl : string := String (ascii_of_nat 10) EmptyString.

(** The four lines appended for one rule. *)
Definition stanza (r : ResolvedRule) : list string :=
  [ "[fix.tools." +:+ rule_name r +:+ "]";
    "command = " +:+ to_toml_array (rule_command r);
    "patterns = " +:+ to_toml_array (rule_patterns r);
    EmptyString ].

Definition config_lines (rules : list ResolvedRule) : list string :=
  (["# Generated by jmt"; "# Do not edit manually"; EmptyString]
     ++ List.concat (map stanza rules))%list.

Definition generate_jj_config (env : gmap string string)
    (treefmt_config : TreefmtConfig) (only_tools : option (gset string))
    : string :=
  String.concat nl (config_lines (resolved_rules env treefmt_config only_tools)).

(** ** The wrapper script and its execution

    [get_inline_command] prints a five-command shell script.  [Sh] gives the
    script as a sequence of commands, [Sh.render] prints it back (it is
    proved below to be the very text [get_inline_command] returns), and
    [Sh.run] executes it.  This is the reading the shell gives that text
    only when [command] and the options are plain words: an option with a
    double quote, a dollar sign, a backquote or a backslash in it changes
    what the shell runs.  [Bash] below reads the text itself, and
    [run_script] proves that for plain words the two agree.  Commands
    separated by [;] run one after the other whatever their exit status,
    and [cmd || true] never fails. *)

Module Sh.

Inductive stream := Stdout | Stderr.

(** What one run of an external tool does: the files it leaves behind, what
    it writes (in order, each piece on its stream) and whether it exits
    with status 0. *)
Record outcome := {
  files_after : gmap string string;
  writes : list (stream * string);
  success : bool
}.

(** An external tool: from its arguments and the files it finds. *)
Definition tool := list string → gmap string string → outcome.

Inductive redirection :=
  | OutToErr    (* >&2 *)
  | AllToNull.  (* >/dev/null 2>&1 *)

Inductive command :=
  | Mktemp (mktemp_cmd ext : string)  (* t=$(mktemp_cmd --suffix=ext) *)
  | ReadStdin                         (* cat > $t *)
  | RunTool (cmd : string) (opts : list string) (r : redirection)
                                      (* cmd opts $t r || true *)
  | CatTemp                           (* cat $t *)
  | RmTemp.                           (* rm $t *)

Definition render_redirection (r : redirection) : string :=
  match r with
  | OutToErr => " >&2 || true"
  | AllToNull => " >/dev/null 2>&1 || true"
  end.

Definition render_command (c : command) : string :=
  match c with
  | Mktemp mk ext => "t=$(" +:+ mk +:+ " --suffix=" +:+ ext +:+ ")"
  | ReadStdin => "cat >" +:+ quoted_t
  | RunTool cmd opts r =>
      cmd +:+ " " +:+ opts_str opts +:+ " " +:+ quoted_t +:+ render_redirection r
  | CatTemp => "cat " +:+ quoted_t
  | RmTemp => "rm " +:+ quoted_t
  end.

Definition render (script : list command) : string :=
  String.concat "; " (map render_command script).

(** The state a script runs in: the files, the shell variable [t], and what
    has been written so far to the script's two output streams. *)
Record world := {
  files : gmap string string;
  var_t : string;
  written : list (stream * string)
}.

Definition apply_redirection (r : redirection) (w : list (stream * string))
    : list (stream * string) :=
  match r with
  | OutToErr => map (λ p, (Stderr, p.2)) w
  | AllToNull => []
  end.

Section run.
(** The surroundings of one run: the content waiting on standard input,
    the path [mktemp] picks, and the behaviour of the external tools by
    command name. *)
Variable input : string.
Variable tmp : string.
Variable tools : string → tool.

Definition step (w : world) (c : command) : world :=
  match c with
  | Mktemp _ _ =>
      {| files := <[tmp := EmptyString]> (files w);
         var_t := tmp;
         written := written w |}
  | ReadStdin =>
      {| files := <[var_t w := input]> (files w);
         var_t := var_t w;
         written := written w |}
  | RunTool cmd opts r =>
      let o := tools cmd (opts ++ [var_t w])%list (files w) in
      {| files := files_after o;
         var_t := var_t w;
         written := (written w ++ apply_redirection r (writes o))%list |}
  | CatTemp =>
      {| files := files w;
         var_t := var_t w;
         written :=
           (written w ++
            match files w !! var_t w with
            | Some content => [(Stdout, content)]
            | None => [(Stderr, "cat: " +:+ var_t w +:+ ": No such file or directory")]
            end)%list |}
  | RmTemp =>
      {| files := delete (var_t w) (files w);
         var_t := var_t w;
         written :=
           (written w ++
            match files w !! var_t w with
            | Some _ => []
            | None => [(Stderr, "rm: cannot remove " +:+ var_t w)]
            end)%list |}
  end.

Definition run (fs : gmap string string) (script : list command) : world :=
  foldl step {| files := fs; var_t := EmptyString; written := [] |} script.
End run.

(** Everything written to one stream, in order. *)
Definition on (s : stream) (w : list (stream * string)) : string :=
  String.concat EmptyString
    (omap (λ p, match s, p.1 with
                | Stdout, Stdout | Stderr, Stderr => Some p.2
                | _, _ => None
                end) w).

Definition stdout (w : world) : string := on Stdout (written w).
Definition stderr (w : world) : string := on Stderr (written w).

End Sh.

(** The script of [get_inline_command], command by command, for a command
    and options that are plain words. *)
Definition inline_script (env : gmap string string)
    (name command : string) (options : list string) (mode : string)
    : list Sh.command :=
  [ Sh.Mktemp (mktemp_cmd env) (default EmptyString (ext_map !! name));
    Sh.ReadStdin;
    Sh.RunTool command (inline_filtered_opts options)
      (if decide (mode = "passthrough") then Sh.OutToErr else Sh.AllToNull);
    Sh.CatTemp;
    Sh.RmTemp ].

(** ** The wrapper script as the shell reads it

    [get_inline_command] pastes the command and the options into the text
    of the script, the options between double quotes but not escaped.
    [Bash] reads such a text the way [bash -c] does, for the part of the
    shell language the script is written in: words with double quotes and
    [$t], [;], [|| true], the redirections [>file], [>&n] and [n>&m], the
    assignment [t=$(...)], [exit], [cat], [rm] and external tools called by
    a path.  A text with anything else in it is not read ([None]).  The
    command named in [$( )] is taken to be a working [mktemp], which makes
    an empty file and prints its path. *)

Module Bash.

(** One character of a word: a literal character with whether it stood
    between double quotes, the variable [$t] between double quotes, or a
    command substitution [$(raw)]. *)
Inductive wchar :=
  | WC (quoted : bool) (a : ascii)
  | WVarT
  | WSubst (raw : string).

Definition word := list wchar.

Inductive token :=
  | TWord (w : word)
  | TSemi                          (* ; *)
  | TOrOr                          (* || *)
  | TGreat (io : option nat)       (* > and n> *)
  | TGreatAnd (io : option nat).   (* >& and n>& *)

Definition in_range (lo hi : nat) (a : ascii) : bool :=
  (lo <=? nat_of_ascii a)%nat && (nat_of_ascii a <=? hi)%nat.

Definition is_digit (a : ascii) : bool := in_range 48 57 a.

Definition is_alnum (a : ascii) : bool :=
  is_digit a || in_range 65 90 a || in_range 97 122 a.

(** The characters a command name or a path is made of here; none of them
    means anything to the shell. *)
Definition plain_char (a : ascii) : bool :=
  is_alnum a || Ascii.eqb a "/" || Ascii.eqb a "." || Ascii.eqb a "_"
  || Ascii.eqb a "-" || Ascii.eqb a "+".

(** The characters read as themselves outside quotes: the plain ones and
    the equals sign. *)
Definition unq_char (a : ascii) : bool := plain_char a || Ascii.eqb a "=".

(** The characters read as themselves between double quotes: the printable
    ASCII characters other than the double quote, the dollar sign, the
    backquote and the backslash. *)
Definition dq_char (a : ascii) : bool :=
  in_range 32 126 a
  && negb (Ascii.eqb a (ascii_of_nat 34)) && negb (Ascii.eqb a "$")
  && negb (Ascii.eqb a "`") && negb (Ascii.eqb a (ascii_of_nat 92)).

(** The characters allowed inside [$( )]. *)
Definition sub_char (a : ascii) : bool := unq_char a || Ascii.eqb a " ".

Definition ident_char (a : ascii) : bool := is_alnum a || Ascii.eqb a "_".

(** Where the reader is: outside quotes (with the word begun, if any),
    between double quotes, or inside [$( )].  The word begun is kept with
    its last character first. *)
Inductive mode :=
  | Unq (cur : option word)
  | Dq (cur : word)
  | Sub (cur : word) (raw : string).

(** The tokens read so far (last first) with the word begun closed. *)
Definition emit (cur : option word) (acc : list token) : list token :=
  match cur with
  | Some w => TWord (rev w) :: acc
  | None => acc
  end.

(** What stands before a [>]: one unquoted digit is the descriptor number
    ([Some (Some n)]); a longer unquoted number is not read here ([None]);
    anything else is a word of its own ([Some None]). *)
Definition io_of (cur : option word) : option (option nat) :=
  match cur with
  | Some [WC false a] =>
      if is_digit a then Some (Some (nat_of_ascii a - 48)%nat) else Some None
  | Some (WC false a :: WC false b :: w) =>
      if forallb (λ c, match c with
                       | WC false d => is_digit d
                       | _ => false
                       end) (WC false a :: WC false b :: w)
      then None else Some None
  | _ => Some None
  end.

(** The words and operators of a command string, read from left to right
    ([acc] holds the tokens read so far, last first); [None] for a text
    with anything in it that is not read here (backslash, single quote,
    backquote, a variable other than [$t] between double quotes, [&], a
    single [|], [<], brackets, braces, globbing characters, line feeds,
    characters outside printable ASCII, ...) or with an open quote. *)
Fixpoint lex (m : mode) (acc : list token) (s : string) {struct s}
    : option (list token) :=
  match s with
  | EmptyString =>
      match m with
      | Unq cur => Some (rev (emit cur acc))
      | _ => None
      end
  | String c rest =>
      match m with
      | Unq cur =>
          if unq_char c then
            lex (Unq (Some (WC false c :: default [] cur))) acc rest
          else if Ascii.eqb c " " || Ascii.eqb c (ascii_of_nat 9) then
            lex (Unq None) (emit cur acc) rest
          else if Ascii.eqb c ";" then
            lex (Unq None) (TSemi :: emit cur acc) rest
          else if Ascii.eqb c "|" then
            match rest with
            | String c' rest' =>
                if Ascii.eqb c' "|" then
                  lex (Unq None) (TOrOr :: emit cur acc) rest'
                else None
            | EmptyString => None
            end
          else if Ascii.eqb c ">" then
            match io_of cur with
            | None => None
            | Some io =>
                let acc' := match io with
                            | Some _ => acc
                            | None => emit cur acc
                            end in
                match rest with
                | String c' rest' =>
                    if Ascii.eqb c' "&" then
                      lex (Unq None) (TGreatAnd io :: acc') rest'
                    else lex (Unq None) (TGreat io :: acc') rest
                | EmptyString => None
                end
            end
          else if Ascii.eqb c (ascii_of_nat 34) then
            lex (Dq (default [] cur)) acc rest
          else if Ascii.eqb c "$" then
            match rest with
            | String c' rest' =>
                if Ascii.eqb c' "(" then
                  lex (Sub (default [] cur) EmptyString) acc rest'
                else None
            | EmptyString => None
            end
          else None
      | Dq cur =>
          if dq_char c then lex (Dq (WC true c :: cur)) acc rest
          else if Ascii.eqb c (ascii_of_nat 34) then
            lex (Unq (Some cur)) acc rest
          else if Ascii.eqb c "$" then
            match rest with
            | String c' rest' =>
                if Ascii.eqb c' "t" then
                  match rest' with
                  | String c'' _ =>
                      if ident_char c'' then None
                      else lex (Dq (WVarT :: cur)) acc rest'
                  | EmptyString => None
                  end
                else None
            | EmptyString => None
            end
          else None
      | Sub cur raw =>
          if sub_char c then
            lex (Sub cur (raw +:+ String c EmptyString)) acc rest
          else if Ascii.eqb c ")" then
            lex (Unq (Some (WSubst raw :: cur))) acc rest
          else None
      end
  end.

(** Where a redirection leads: a file, or the place another descriptor
    leads to. *)
Inductive target :=
  | ToFile (w : word)
  | ToFd (n : nat).

(** A simple command: its words, its redirections in the order written,
    and whether [|| true] follows. *)
Record simple := {
  argv : list word;
  redirs : list (nat * target);
  or_true : bool
}.

Definition unquoted (s : string) : word := WC false <$> list_ascii_of_string s.
Definition quoted (s : string) : word := WC true <$> list_ascii_of_string s.

(** The word [true], written without quotes. *)
Definition is_true (w : word) : bool :=
  match w with
  | [WC false a; WC false b; WC false c; WC false d] =>
      Ascii.eqb a "t" && Ascii.eqb b "r" && Ascii.eqb c "u" && Ascii.eqb d "e"
  | _ => false
  end.

(** An equals sign outside quotes: a first word with one may be an
    assignment. *)
Definition unquoted_eq (c : wchar) : bool :=
  match c with
  | WC false a => Ascii.eqb a "="
  | _ => false
  end.

Fixpoint parse_simple (acc : simple) (ts : list token) {struct ts}
    : option simple :=
  match ts with
  | [] => Some acc
  | TWord w :: ts' =>
      parse_simple {| argv := argv acc ++ [w]; redirs := redirs acc;
                      or_true := or_true acc |} ts'
  | TGreat io :: ts1 =>
      match ts1 with
      | TWord w :: ts' =>
          parse_simple {| argv := argv acc;
                          redirs := redirs acc ++ [(default 1%nat io, ToFile w)];
                          or_true := or_true acc |} ts'
      | _ => None
      end
  | TGreatAnd io :: ts1 =>
      match ts1 with
      | TWord [WC false a] :: ts' =>
          if is_digit a then
            parse_simple {| argv := argv acc;
                            redirs := redirs acc
                                        ++ [(default 1%nat io,
                                             ToFd (nat_of_ascii a - 48))];
                            or_true := or_true acc |} ts'
          else None
      | _ => None
      end
  | TOrOr :: ts1 =>
      match ts1 with
      | [TWord w] =>
          if is_true w then
            Some {| argv := argv acc; redirs := redirs acc; or_true := true |}
          else None
      | _ => None
      end
  | TSemi :: _ => None
  end.

(** The token lists between the semicolons. *)
Fixpoint split_semi (ts : list token) : list (list token) :=
  match ts with
  | [] => [[]]
  | TSemi :: ts' => [] :: split_semi ts'
  | t :: ts' =>
      match split_semi ts' with
      | seg :: segs => (t :: seg) :: segs
      | [] => [[t]]
      end
  end.

(** The commands of a command string, in order; none of them empty. *)
Definition parse (ts : list token) : option (list simple) :=
  mapM (λ seg,
          match seg with
          | [] => None
          | _ :: _ =>
              parse_simple {| argv := []; redirs := []; or_true := false |} seg
          end)
       (split_semi ts).

(** The state of a run: the files, the variable [t], what has been written
    to the two output streams, and what is left on standard input. *)
Record state := {
  files : gmap string string;
  var_t : string;
  written : list (Sh.stream * string);
  stdin : string
}.

(** A word after expansion. *)
Fixpoint expand (t : string) (w : word) : option string :=
  match w with
  | [] => Some EmptyString
  | WC _ a :: w' => String a <$> expand t w'
  | WVarT :: w' => (λ s, t +:+ s) <$> expand t w'
  | WSubst _ :: _ => None
  end.

Definition expand_target (t : string) (r : nat * target)
    : option (nat * (string + nat)) :=
  match r.2 with
  | ToFile w => (λ f, (r.1, inl f)) <$> expand t w
  | ToFd n => Some (r.1, inr n)
  end.

(** Where the two output descriptors of a command lead after its
    redirections: to a stream of the script, or nowhere ([/dev/null]). *)
Fixpoint route (rs : list (nat * (string + nat)))
    (d : option Sh.stream * option Sh.stream)
    : option (option Sh.stream * option Sh.stream) :=
  match rs with
  | [] => Some d
  | (fd, tgt) :: rs' =>
      match
        match tgt with
        | inl f => if bool_decide (f = "/dev/null") then Some None else None
        | inr n =>
            if bool_decide (n = 1%nat) then Some d.1
            else if bool_decide (n = 2%nat) then Some d.2
            else None
        end
      with
      | None => None
      | Some x =>
          if bool_decide (fd = 1%nat) then route rs' (x, d.2)
          else if bool_decide (fd = 2%nat) then route rs' (d.1, x)
          else None
      end
  end.

Definition routed (d : option Sh.stream * option Sh.stream)
    (w : list (Sh.stream * string)) : list (Sh.stream * string) :=
  omap (λ p, (λ s, (s, p.2))
               <$> match p.1 with
                   | Sh.Stdout => d.1
                   | Sh.Stderr => d.2
                   end) w.

(** A path of a regular file, as [mktemp] gives it: absolute, and not the
    null device. *)
Definition file_path (f : string) : bool :=
  String.prefix "/" f && negb (bool_decide (f = "/dev/null")).

(** A command word: not empty, made of plain characters. *)
Definition plain_word (s : string) : bool :=
  negb (bool_decide (s = EmptyString))
  && forallb plain_char (list_ascii_of_string s).

(** The text of [$( )] in the assignment to [t]: a command word and
    [--suffix=...]. *)
Definition mktemp_call (raw : string) : bool :=
  match split_on " " raw with
  | [mk; sfx] =>
      plain_word mk && String.prefix "--suffix=" sfx
  | _ => false
  end.

(** The command [t=$(raw)], alone: the text between the brackets. *)
Definition assignment (c : simple) : option string :=
  match redirs c, or_true c, argv c with
  | [], false, [[WC false t; WC false eq; WSubst raw]] =>
      if Ascii.eqb t "t" && Ascii.eqb eq "=" then Some raw else None
  | _, _, _ => None
  end.

(** A command given by a path: a plain word with a [/] in it. *)
Definition plain_path (s : string) : bool :=
  plain_word s && bool_decide ("/"%char ∈ list_ascii_of_string s).

(** An option that stands for itself between double quotes. *)
Definition dq_safe (s : string) : bool :=
  forallb dq_char (list_ascii_of_string s).

Section exec.
(** The surroundings of one run: the path [mktemp] gives and the behaviour
    of the external tools by the path they are called at. *)
Variable tmp : string.
Variable tools : string → Sh.tool.

(** One command: the state after it and whether the shell has exited;
    [None] for a command that is not read here.  Commands found by name
    ([cat], [rm]) are taken to be the usual ones; a command written with a
    [/] is an external tool. *)
Definition exec (st : state) (c : simple) : option (bool * state) :=
  match assignment c with
  | Some raw =>
      if mktemp_call raw && file_path tmp
      then Some (false, {| files := <[tmp := EmptyString]> (files st);
                           var_t := tmp;
                           written := written st;
                           stdin := stdin st |})
      else None
  | None =>
      args ← mapM (expand (var_t st)) (argv c);
      rs ← mapM (expand_target (var_t st)) (redirs c);
      match args with
      | [] => None
      | a0 :: args' =>
          if existsb unquoted_eq (default [] (head (argv c))) then None
          else if bool_decide (a0 = "exit") then
            match args', rs with
            | [], [] => Some (true, st)
            | [n], [] =>
                if forallb is_digit (list_ascii_of_string n)
                   && negb (bool_decide (n = EmptyString))
                then Some (true, st) else None
            | _, _ => None
            end
          else if bool_decide (a0 = "true") then
            match args', rs with
            | [], [] => Some (false, st)
            | _, _ => None
            end
          else if bool_decide (a0 = "cat") then
            match args', rs with
            | [], [(1%nat, inl f)] =>
                if file_path f then
                  Some (false, {| files := <[f := stdin st]> (files st);
                                  var_t := var_t st;
                                  written := written st;
                                  stdin := EmptyString |})
                else None
            | [f], [] =>
                if file_path f then
                  Some (false,
                        {| files := files st;
                           var_t := var_t st;
                           written :=
                             written st ++
                             match files st !! f with
                             | Some content => [(Sh.Stdout, content)]
                             | None =>
                                 [(Sh.Stderr,
                                   "cat: " +:+ f
                                     +:+ ": No such file or directory")]
                             end;
                           stdin := stdin st |})
                else None
            | _, _ => None
            end
          else if bool_decide (a0 = "rm") then
            match args', rs with
            | [f], [] =>
                if file_path f then
                  Some (false,
                        {| files := delete f (files st);
                           var_t := var_t st;
                           written :=
                             written st ++
                             match files st !! f with
                             | Some _ => []
                             | None =>
                                 [(Sh.Stderr, "rm: cannot remove " +:+ f)]
                             end;
                           stdin := stdin st |})
                else None
            | _, _ => None
            end
          else if bool_decide ("/"%char ∈ list_ascii_of_string a0) then
            d ← route rs (Some Sh.Stdout, Some Sh.Stderr);
            let o := tools a0 args' (files st) in
            Some (false, {| files := Sh.files_after o;
                            var_t := var_t st;
                            written := written st ++ routed d (Sh.writes o);
                            stdin := stdin st |})
          else None
      end
  end.

Fixpoint exec_list (st : state) (cs : list simple) : option state :=
  match cs with
  | [] => Some st
  | c :: cs' =>
      match exec st c with
      | None => None
      | Some (true, st') => Some st'
      | Some (false, st') => exec_list st' cs'
      end
  end.

(** The run of a command string given to [bash -c]: the whole text is read
    first, then the commands run one after the other until the end or an
    [exit]. *)
Definition run (input : string) (fs : gmap string string) (script : string)
    : option Sh.world :=
  ts ← lex (Unq None) [] script;
  cs ← parse ts;
  st ← exec_list {| files := fs; var_t := EmptyString; written := [];
                    stdin := input |} cs;
  Some {| Sh.files := files st; Sh.var_t := var_t st;
          Sh.written := written st |}.
End exec.

End Bash.

(** *** What the script reads as, for plain words

    The tokens and the commands [Bash] finds in the script when the command
    and the options stand for themselves (proved below). *)

(** The tokens of the redirection of each of the two modes. *)
Definition redirection_tokens (r : Sh.redirection) : list Bash.token :=
  match r with
  | Sh.OutToErr =>
      [Bash.TGreatAnd None; Bash.TWord (Bash.unquoted "2")]
  | Sh.AllToNull =>
      [Bash.TGreat None; Bash.TWord (Bash.unquoted "/dev/null");
       Bash.TGreatAnd (Some 2%nat); Bash.TWord (Bash.unquoted "1")]
  end.

(** The tokens of the whole script, in order. *)
Definition script_tokens (mk ext command : string) (opts : list string)
    (r : Sh.redirection) : list Bash.token :=
  [Bash.TWord [Bash.WC false "t"; Bash.WC false "=";
               Bash.WSubst (mk +:+ " --suffix=" +:+ ext)];
   Bash.TSemi;
   Bash.TWord (Bash.unquoted "cat"); Bash.TGreat None;
   Bash.TWord [Bash.WVarT]; Bash.TSemi;
   Bash.TWord (Bash.unquoted command)]
  ++ (Bash.TWord <$> (Bash.quoted <$> opts))
  ++ Bash.TWord [Bash.WVarT] :: redirection_tokens r
  ++ [Bash.TOrOr; Bash.TWord (Bash.unquoted "true"); Bash.TSemi;
      Bash.TWord (Bash.unquoted "cat"); Bash.TWord [Bash.WVarT];
      Bash.TSemi;
      Bash.TWord (Bash.unquoted "rm"); Bash.TWord [Bash.WVarT]].

(** The redirections of the tool's command, by mode. *)
Definition script_redirs (r : Sh.redirection) : list (nat * Bash.target) :=
  match r with
  | Sh.OutToErr => [(1%nat, Bash.ToFd 2)]
  | Sh.AllToNull =>
      [(1%nat, Bash.ToFile (Bash.unquoted "/dev/null")); (2%nat, Bash.ToFd 1)]
  end.

(** The five commands of the script. *)
Definition script_commands (mk ext command : string) (opts : list string)
    (r : Sh.redirection) : list Bash.simple :=
  [ {| Bash.argv := [[Bash.WC false "t"; Bash.WC false "=";
                      Bash.WSubst (mk +:+ " --suffix=" +:+ ext)]];
       Bash.redirs := []; Bash.or_true := false |};
    {| Bash.argv := [Bash.unquoted "cat"];
       Bash.redirs := [(1%nat, Bash.ToFile [Bash.WVarT])];
       Bash.or_true := false |};
    {| Bash.argv := Bash.unquoted command :: (Bash.quoted <$> opts)
                      ++ [[Bash.WVarT]];
       Bash.redirs := script_redirs r; Bash.or_true := true |};
    {| Bash.argv := [Bash.unquoted "cat"; [Bash.WVarT]];
       Bash.redirs := []; Bash.or_true := false |};
    {| Bash.argv := [Bash.unquoted "rm"; [Bash.WVarT]];
       Bash.redirs := []; Bash.or_true := false |} ].

(** ** The specification's wording, for comparison with the code *)

(** The set-difference chain of the specification: the include query, then
    one [~ e] per exclude query, added from left to right. *)
Definition difference_chain (include_query : string)
    (exclude_queries : list string) : string :=
  foldl (λ acc e, acc +:+ " ~ " +:+ e) include_query exclude_queries.

(** [combinePatterns] for one include, in the specification's words. *)
Definition combine_one (inc : string) (excludes global_excludes : list string)
    : string :=
  match (map glob_to_jj_pattern excludes
           ++ map glob_to_jj_pattern global_excludes)%list with
  | [] => glob_to_jj_pattern inc
  | queries => "(" +:+ difference_chain (glob_to_jj_pattern inc) queries +:+ ")"
  end.

(** The stdin arguments of a tool: its entry in the static table, nothing
    when it has none. *)
Definition stdin_args (cmd_name : string) : list string :=
  default [] (STDIN_ARGS !! cmd_name).

(** The stdin arguments as the specification words them: the entry of the
    static table for the tool, by its declared name; nothing for a tool
    that has none, but for [fmt] of the two infrastructure formatters. *)
Definition stdin_args_of_tool (name : string) (filtered_opts : list string)
    : list string :=
  match STDIN_ARGS !! name with
  | Some args => args
  | None =>
      if decide ("fmt" ∈ filtered_opts ∧ name ∈ ["tofu"; "terraform"])
      then ["-"] else []
  end.

(** The flags the stdin path strips on top of those the wrapper strips. *)
Definition stdin_only_exclude (cmd_name : string) : list string :=
  if decide (cmd_name ∈ INPLACE_SHORT_FLAG)
  then ["-e"; "--edit"; "--fix"; "--inplace"; "-i"]
  else ["-e"; "--edit"; "--fix"; "--inplace"].

(** The section header line of the stanza of tool [name]. *)
Definition stanza_header (name : string) : string :=
  "[fix.tools." +:+ name +:+ "]".

(** The generated text has a stanza for tool [name]. *)
Definition has_stanza (name : string) (lines : list string) : Prop :=
  stanza_header name ∈ lines.

(** ** Sample inputs *)

Definition tool_config (command : option string)
    (options includes excludes : option (list string)) : ToolConfig :=
  {| cfg_command := command; cfg_options := options;
     cfg_includes := includes; cfg_excludes := excludes |}.

(** Two declared tools; [nixfmt] has no include pattern. *)
Definition sample_config : TreefmtConfig :=
  {| formatter :=
       Some (list_to_map
               [ ("nixfmt", tool_config (Some "nixfmt") None (Some []) None);
                 ("shfmt", tool_config (Some "shfmt") (Some ["-i"; "2"])
                             (Some ["*.sh"]) None);
                 ("broken", tool_config (Some EmptyString) None
                              (Some ["*.txt"]) None) ]);
     global := None |}.

(** Scenarios A, B and D of the specification: [nixfmt] and [shellcheck],
    each with one bare extension glob. *)
Definition scenario_config : TreefmtConfig :=
  {| formatter :=
       Some (list_to_map
               [ ("nixfmt", tool_config (Some "nixfmt") None
                              (Some ["*.nix"]) None);
                 ("shellcheck", tool_config (Some "shellcheck") None
                                  (Some ["*.sh"]) None) ]);
     global := None |}.

(** A tool that rewrites the file named by its last argument, prints a
    diagnostic and fails. *)
Definition fixing_tool : Sh.tool :=
  λ args fs,
    {| Sh.files_after :=
         match last args with
         | Some path => <[path := "fixed"]> fs
         | None => fs
         end;
       Sh.writes := [(Sh.Stdout, "1 fix applied"); (Sh.Stderr, "warning")];
       Sh.success := false |}.

(** A tool that only reports: it leaves every file as it is. *)
Definition reporting_tool : Sh.tool :=
  λ args fs,
    {| Sh.files_after := fs;
       Sh.writes := [(Sh.Stdout, "SC2086: quote this"); (Sh.Stderr, "note")];
       Sh.success := false |}.

(** ** The rest of the program: list mode, arguments, the host file *)

(** [s[:n]] and [s[n:]] on strings. *)
Fixpoint str_take (n : nat) (s : string) : string :=
  match n, s with
  | O, _ => EmptyString
  | S _, EmptyString => EmptyString
  | S n', String a s' => String a (str_take n' s')
  end.

Fixpoint str_drop (n : nat) (s : string) : string :=
  match n, s with
  | O, _ => s
  | S _, EmptyString => EmptyString
  | S n', String _ s' => str_drop n' s'
  end.

(** [s.find(pat)]: the first position where [pat] occurs in [s]. *)
Fixpoint str_index (pat s : string) : option nat :=
  if String.prefix pat s then Some O
  else match s with
       | EmptyString => None
       | String _ s' => S <$> str_index pat s'
       end.

(** [l.index(x)] for a list, [None] where Python raises. *)
Definition list_index (x : string) (l : list string) : option nat :=
  fst <$> list_find (λ y, y = x) l.

(** The two [replace] calls of [to_toml_array] on one item. *)
Definition escape_item (item : string) : string :=
  replace_char (ascii_of_nat 34) (bslash +:+ dq)
    (replace_char (ascii_of_nat 92) (bslash +:+ bslash) item).

(** What the two [replace] calls make of one character. *)
Definition escape_char (a : ascii) : string :=
  if Ascii.eqb a (ascii_of_nat 92) then bslash +:+ bslash
  else if Ascii.eqb a (ascii_of_nat 34) then bslash +:+ dq
  else String a EmptyString.

(** One item of a rendered array, between its quotes. *)
Definition quote_item (item : string) : string :=
  dq +:+ escape_item item +:+ dq.



(** [status] of [list_tools]. *)
Definition tool_status (name : string) : string :=
  if decide (name ∈ PASSTHROUGH_LINTERS) then " [linter]"
  else if decide (name ∈ NEEDS_WRAPPER) then " [wrapper]"
  else EmptyString.



(** [parse_args], on [sys.argv[1:]]. *)
Definition parse_args (args : list string) : list string * list string :=
  match list_index "--" args with
  | Some idx => (take idx args, drop (S idx) args)
  | None => (args, [])
  end.

(** One turn of the loop of [main] that reads [--only]. *)
Definition only_step (jmt_args : list string)
    (only_tools : option (gset string)) (arg : string)
    : option (gset string) :=
  if String.prefix "--only=" arg then
    Some (list_to_set (split_on ","%char (str_drop 7 arg)))
  else if decide (arg = "--only") then
    match list_index arg jmt_args with
    | Some idx =>
        match jmt_args !! S idx with
        | Some value => Some (list_to_set (split_on ","%char value))
        | None => only_tools
        end
    | None => only_tools
    end
  else only_tools.

(** [only_tools] at the end of that loop. *)
Definition parse_only (jmt_args : list string) : option (gset string) :=
  foldl (only_step jmt_args) None jmt_args.

(** [marker] of [write_jj_config]. *)
Definition marker : string := "# Generated by jmt".

(** The search of [write_jj_config] for the end of the generated section: a
    line feed and an opening bracket that [fix.tools.] does not follow. *)
Fixpoint section_end (rest : string) : option nat :=
  if String.prefix (nl +:+ "[") rest
     && negb (String.prefix "fix.tools." (str_drop 2 rest))
  then Some O
  else match rest with
       | EmptyString => None
       | String _ rest' => S <$> section_end rest'
       end.

(** The part of [write_jj_config] that removes the old generated section
    from the text of the host file. *)
Definition remove_old_section (existing : string) : string :=
  match str_index marker existing with
  | Some start_idx =>
      let rest := str_drop start_idx existing in
      match section_end rest with
      | Some end_off =>
          str_take start_idx existing
            +:+ str_drop (start_idx + end_off) existing
      | None => str_take start_idx existing
      end
  | None => existing
  end.

(** A string in which the character [c] does not occur. *)
Definition free_of (c : ascii) (s : string) : Prop :=
  c ∉ list_ascii_of_string s.

(** A string with no line feed in it. *)
Definition one_line (s : string) : Prop := free_of (ascii_of_nat 10) s.

(** A text that does not open a section of another tool than those of
    [fix.tools]. *)
Definition own_start (s : string) : Prop :=
  String.prefix "[" s = false ∨ String.prefix "[fix.tools." s = true.

(** A rule whose name, command words and patterns hold no line feed. *)
Definition one_line_rule (r : ResolvedRule) : Prop :=
  one_line (rule_name r)
  ∧ Forall one_line (rule_command r)
  ∧ Forall one_line (rule_patterns r).

(** [cmd] of [run_jj_fix]. *)
Definition run_jj_fix_cmd (extra_args : option (list string)) : list string :=
  ["jj"; "fix"; "--include-unchanged-files"] ++ default [] extra_args.

(** The argument [main] gives to [run_jj_fix]: [jj_args if jj_args else
    None]. *)
Definition jj_extra_args (jj_args : list string) : option (list string) :=
  match jj_args with
  | [] => None
  | _ :: _ => Some jj_args
  end.

(** ** Elementary facts on strings and filters *)

Lemma append_assoc (s t u : string) : (s +:+ t) +:+ u = s +:+ (t +:+ u).
Proof.
  induction s as [|a s IH]; [done|].
  change (String a ((s +:+ t) +:+ u) = String a (s +:+ t +:+ u)).
  by rewrite IH.
Qed.

Lemma append_nil_r (s : string) : s +:+ EmptyString = s.
Proof.
  induction s as [|a s IH]; [done|].
  change (String a (s +:+ EmptyString) = String a s). by rewrite IH.
Qed.

Lemma prefix_app (p rest : string) : String.prefix p (p +:+ rest) = true.
Proof.
  induction p as [|a p IH]; [by destruct rest|].
  change (String.prefix (String a p) (String a (p +:+ rest)) = true).
  cbn. destruct (ascii_dec a a); [done|congruence].
Qed.

Lemma prefix_inv (p s : string) :
  String.prefix p s = true → ∃ rest, s = p +:+ rest.
Proof.
  revert s. induction p as [|a p IH]; intros s Hp.
  - by exists s.
  - destruct s as [|b s]; [done|]. cbn in Hp.
    destruct (ascii_dec a b) as [->|]; [|done].
    destruct (IH _ Hp) as [rest ->]. by exists rest.
Qed.

Lemma without_spec (xs options : list string) (o : string) :
  o ∈ without xs options ↔ o ∈ options ∧ o ∉ xs.
Proof. unfold without. rewrite list_elem_of_filter. tauto. Qed.

Lemma without_app (xs ys options : list string) :
  without (xs ++ ys) options = without ys (without xs options).
Proof.
  unfold without. induction options as [|o options IH]; [done|].
  rewrite !filter_cons.
  destruct (decide (o ∉ xs ++ ys)) as [Hn|Hn];
    destruct (decide (o ∉ xs)) as [Hx|Hx].
  - rewrite filter_cons. rewrite decide_True; [by rewrite IH|].
    intros ?. apply Hn, elem_of_app. by right.
  - exfalso. apply Hx. intros ?. apply Hn, elem_of_app. by left.
  - rewrite filter_cons. rewrite decide_False; [done|].
    intros Hy. apply Hn. intros [?|?]%elem_of_app; [by apply Hx|by apply Hy].
  - done.
Qed.

Lemma stdin_exclude_split (cmd_name : string) :
  stdin_exclude cmd_name = (["-w"; "--write"] ++ stdin_only_exclude cmd_name)%list.
Proof.
  unfold stdin_exclude, stdin_only_exclude.
  by destruct (decide (cmd_name ∈ INPLACE_SHORT_FLAG)).
Qed.

Lemma difference_chain_concat (es : list string) (q e : string) :
  difference_chain q (e :: es) = q +:+ " ~ " +:+ String.concat " ~ " (e :: es).
Proof.
  unfold difference_chain. revert q e.
  induction es as [|e' es IH]; intros q e; [done|].
  change (foldl (λ acc e0, acc +:+ " ~ " +:+ e0) (q +:+ " ~ " +:+ e) (e' :: es)
          = q +:+ " ~ " +:+ (e +:+ " ~ " +:+ String.concat " ~ " (e' :: es))).
  rewrite IH. by rewrite !append_assoc.
Qed.

(** ** Pattern resolver *)

(** C6. A glob that starts with [**/] is wrapped verbatim; a glob that starts
    with [*.] is wrapped with [**/] put in front; any other glob is wrapped
    as it is. *)
Theorem glob_to_jj_pattern_cases (g : string) :
  (∀ rest, g = "**/" +:+ rest → glob_to_jj_pattern g = "glob:'" +:+ g +:+ "'")
  ∧ (∀ rest, g = "*." +:+ rest →
       glob_to_jj_pattern g = "glob:'**/" +:+ g +:+ "'")
  ∧ ((∀ rest, g ≠ "**/" +:+ rest) → (∀ rest, g ≠ "*." +:+ rest) →
       glob_to_jj_pattern g = "glob:'" +:+ g +:+ "'").
Proof.
  unfold glob_to_jj_pattern. split; [|split].
  - intros rest ->. by rewrite prefix_app.
  - intros rest ->. rewrite prefix_app.
    by replace (String.prefix "**/" ("*." +:+ rest)) with false
      by (by destruct rest).
  - intros H1 H2.
    destruct (String.prefix "**/" g) eqn:E1.
    { apply prefix_inv in E1 as [rest ->]. by destruct (H1 rest). }
    destruct (String.prefix "*." g) eqn:E2; [|done].
    apply prefix_inv in E2 as [rest ->]. by destruct (H2 rest).
Qed.

Lemma glob_to_jj_pattern_cases_witness :
  glob_to_jj_pattern "**/Makefile" = "glob:'**/Makefile'"
  ∧ glob_to_jj_pattern "*.nix" = "glob:'**/*.nix'"
  ∧ glob_to_jj_pattern "vendor/*.py" = "glob:'vendor/*.py'".
Proof.
  split; [|split].
  - apply (proj1 (glob_to_jj_pattern_cases "**/Makefile") "Makefile").
    reflexivity.
  - apply (proj1 (proj2 (glob_to_jj_pattern_cases "*.nix")) "nix").
    reflexivity.
  - apply (proj2 (proj2 (glob_to_jj_pattern_cases "vendor/*.py"))).
    + intros rest. discriminate.
    + intros rest. discriminate.
Defined.

(** C7. For every include, with at least one tool or global exclude the
    pattern is the parenthesised chain that starts at the include query and
    subtracts every exclude query, the tool's excludes first and the global
    ones after them, each list in declaration order, from left to right;
    with no exclude at all it is the include query alone.  Every query,
    include or exclude, is the glob resolved by [glob_to_jj_pattern]. *)
Theorem convert_patterns_chain (includes excludes global_excludes : list string) :
  convert_patterns includes excludes global_excludes
  = map (λ inc, combine_one inc excludes global_excludes) includes
  ∧ convert_patterns includes [] [] = map glob_to_jj_pattern includes.
Proof.
  split; [|done].
  unfold convert_patterns, combine_one. apply map_ext. intros inc.
  rewrite <- map_app.
  destruct (excludes ++ global_excludes) as [|e es] eqn:E.
  - by rewrite decide_True.
  - rewrite decide_False by done.
    cbn [map]. rewrite difference_chain_concat.
    by rewrite !append_assoc.
Qed.

(** Scenario C of the specification, as the code computes it: the global
    exclude [*.generated.py] is a bare extension glob and is resolved like
    one. *)
Example convert_patterns_scenario_c :
  convert_patterns ["*.py"] ["vendor/*.py"] ["*.generated.py"]
  = ["(glob:'**/*.py' ~ glob:'vendor/*.py' ~ glob:'**/*.generated.py')"].
Proof. reflexivity. Qed.

(** ** Command synthesizer: option filters *)

(** C2, as the code has it.  The wrapper strips [-w] and [--write] and
    nothing else; the stdin path strips those two and, on top of them,
    [-e], [--edit], [--fix], [--inplace] (and [-i] for a command of
    [INPLACE_SHORT_FLAG]): its result is the wrapper's result with these
    further flags removed. *)
Theorem inline_filter_within_stdin_filter (cmd_name : string)
    (options : list string) :
  (∀ o, o ∈ inline_filtered_opts options
        ↔ o ∈ options ∧ o ≠ "-w" ∧ o ≠ "--write")
  ∧ stdin_filtered_opts cmd_name options
    = without (stdin_only_exclude cmd_name) (inline_filtered_opts options).
Proof.
  split.
  - intros o. unfold inline_filtered_opts. rewrite without_spec.
    rewrite !elem_of_cons, elem_of_nil. tauto.
  - unfold stdin_filtered_opts, inline_filtered_opts.
    by rewrite stdin_exclude_split, without_app.
Qed.

(** C2 as stated fails: [deadnix] is a wrapped tool, and for the options
    [--edit; --quiet] the wrapper keeps [--edit] while the stdin path
    strips it. *)
Lemma inline_filter_differs_from_stdin_filter :
  ¬ (∀ name command options,
       classify name ≠ DirectStdin →
       inline_filtered_opts options
       = stdin_filtered_opts (path_name command) options).
Proof.
  intros H.
  specialize (H "deadnix" "deadnix" ["--edit"; "--quiet"]).
  assert (classify "deadnix" ≠ DirectStdin) as Hc by (vm_compute; discriminate).
  specialize (H Hc). vm_compute in H. discriminate.
Qed.

(** ** Command synthesizer: the stdin path *)

Lemma classify_direct (name : string) :
  classify name = DirectStdin →
  (name ∉ NEEDS_WRAPPER) ∧ (name ∉ PASSTHROUGH_LINTERS).
Proof.
  unfold classify, wrapper_type_of.
  destruct (decide (name ∈ NEEDS_WRAPPER)); [done|].
  destruct (decide (name ∈ PASSTHROUGH_LINTERS)); done.
Qed.

Lemma stdin_args_table (cmd_name : string) (args : list string) :
  STDIN_ARGS !! cmd_name = Some args →
  (cmd_name, args) ∈
    [ ("yamlfmt", ["-"]); ("keep-sorted", ["-"]); ("tofu", ["-"]);
      ("terraform", ["-"]); ("prettier", ["--stdin-filepath=$path"]);
      ("taplo", ["-"]); ("ruff", ["--stdin-filename=input.py"]);
      ("mdformat", ["-"]); ("shfmt", ["-"]); ("typstyle", []) ].
Proof. intros H. by apply elem_of_list_to_map_2 in H. Qed.

Lemma fmt_tools_in_table (cmd_name : string) :
  cmd_name ∈ ["tofu"; "terraform"] → STDIN_ARGS !! cmd_name = Some ["-"].
Proof.
  rewrite !elem_of_cons, elem_of_nil. intros [->|[->|[]]]; reflexivity.
Qed.

(** The stdin path of [get_stdin_command], in closed form: the [fmt]
    special case adds nothing, because both of its tools are in
    [STDIN_ARGS] already. *)
Lemma get_stdin_command_direct (env : gmap string string)
    (name command : string) (options : list string)
    (wrapper_type : option string) :
  name ∉ NEEDS_WRAPPER → name ∉ PASSTHROUGH_LINTERS →
  get_stdin_command env name command options wrapper_type
  = command :: stdin_filtered_opts (path_name command) options
      ++ stdin_args (path_name command).
Proof.
  intros Hw Hp. unfold get_stdin_command, stdin_args.
  rewrite decide_False by tauto. rewrite decide_False by tauto.
  destruct (STDIN_ARGS !! path_name command) as [args|] eqn:E; [done|].
  rewrite decide_False; [by rewrite app_nil_r|].
  intros [_ Hin]. apply fmt_tools_in_table in Hin. congruence.
Qed.

(** ** Generator: which tools get a rule *)

Lemma tool_rule_with_Some (excluded : gset string) (env : gmap string string)
    (global_excludes : list string) (only_tools : option (gset string))
    (name : string) (config : ToolConfig) (r : ResolvedRule) :
  tool_rule_with excluded env global_excludes only_tools name config = Some r
  ↔ (name ∉ excluded)
    ∧ skipped_by_only only_tools name = false
    ∧ default EmptyString (cfg_command config) ≠ EmptyString
    ∧ default [] (cfg_includes config) ≠ []
    ∧ r = {| rule_name := name;
             rule_command :=
               get_stdin_command env name
                 (default EmptyString (cfg_command config))
                 (default [] (cfg_options config)) (wrapper_type_of name);
             rule_patterns :=
               convert_patterns (default [] (cfg_includes config))
                 (default [] (cfg_excludes config)) global_excludes |}.
Proof.
  unfold tool_rule_with.
  destruct (decide (name ∈ excluded)).
  { split; [done|]. by intros (?&_). }
  destruct (skipped_by_only only_tools name).
  { split; [done|]. by intros (_&?&_). }
  destruct (decide (default EmptyString (cfg_command config) = EmptyString)).
  { split; [done|]. by intros (_&_&?&_). }
  destruct (decide (default [] (cfg_includes config) = [])).
  { split; [done|]. by intros (_&_&_&?&_). }
  split.
  - by intros [= <-].
  - by intros (_&_&_&_&->).
Qed.

Lemma elem_of_sorted_items (formatters : gmap string ToolConfig)
    (name : string) (config : ToolConfig) :
  (name, config) ∈ sorted_items formatters ↔ formatters !! name = Some config.
Proof.
  unfold sorted_items. rewrite merge_sort_Permutation.
  apply elem_of_map_to_list.
Qed.

Lemma elem_of_resolved_rules_with (excluded : gset string)
    (env : gmap string string) (treefmt_config : TreefmtConfig)
    (only_tools : option (gset string)) (r : ResolvedRule) :
  r ∈ resolved_rules_with excluded env treefmt_config only_tools
  ↔ ∃ config,
      formatters_of treefmt_config !! rule_name r = Some config
      ∧ tool_rule_with excluded env
          (default [] (glb_excludes (default {| glb_excludes := None |}
                                       (global treefmt_config))))
          only_tools (rule_name r) config = Some r.
Proof.
  unfold resolved_rules_with. rewrite list_elem_of_omap. split.
  - intros [[name config] [Hin Hr]]. cbn [fst snd] in Hr.
    apply elem_of_sorted_items in Hin.
    pose proof Hr as Hr'. apply tool_rule_with_Some in Hr' as (_&_&_&_&->).
    cbn [rule_name]. eauto.
  - intros [config [Hin Hr]]. exists (rule_name r, config). split; [|done].
    by apply elem_of_sorted_items.
Qed.

(** The name of a rule is in the output exactly when its tool is declared
    and passes the four tests of the loop. *)
Lemma rule_name_emitted (excluded : gset string) (env : gmap string string)
    (treefmt_config : TreefmtConfig) (only_tools : option (gset string))
    (name : string) :
  name ∈ map rule_name
           (resolved_rules_with excluded env treefmt_config only_tools)
  ↔ ∃ config,
      formatters_of treefmt_config !! name = Some config
      ∧ (name ∉ excluded)
      ∧ skipped_by_only only_tools name = false
      ∧ default EmptyString (cfg_command config) ≠ EmptyString
      ∧ default [] (cfg_includes config) ≠ [].
Proof.
  change (map rule_name ?l) with (rule_name <$> l).
  rewrite list_elem_of_fmap. split.
  - intros [r [-> [config [Hin Hr]]%elem_of_resolved_rules_with]].
    apply tool_rule_with_Some in Hr as (?&?&?&?&_). by exists config.
  - intros (config & Hin & Hex & Hsk & Hc & Hi).
    destruct (tool_rule_with excluded env
                (default [] (glb_excludes (default {| glb_excludes := None |}
                                             (global treefmt_config))))
                only_tools name config) as [r|] eqn:Hr.
    + assert (rule_name r = name) as Hn.
      { apply tool_rule_with_Some in Hr as (_&_&_&_&->). done. }
      exists r. split; [done|].
      apply elem_of_resolved_rules_with. exists config. by rewrite Hn.
    + exfalso.
      assert (is_Some (tool_rule_with excluded env
                (default [] (glb_excludes (default {| glb_excludes := None |}
                                             (global treefmt_config))))
                only_tools name config)) as [r' Hr'].
      { eexists. apply tool_rule_with_Some. by repeat split. }
      congruence.
Qed.

Lemma get_stdin_command_nonempty (env : gmap string string)
    (name command : string) (options : list string)
    (wrapper_type : option string) :
  get_stdin_command env name command options wrapper_type ≠ [].
Proof.
  unfold get_stdin_command, get_inline_command.
  destruct (decide (wrapper_type = Some "edit" ∧ name ∈ NEEDS_WRAPPER));
    [done|].
  destruct (decide (wrapper_type = Some "passthrough"
                    ∧ name ∈ PASSTHROUGH_LINTERS)); [done|].
  destruct (STDIN_ARGS !! path_name command); [done|].
  by destruct (decide _).
Qed.

Lemma append_right_inj (s t u : string) : s +:+ u = t +:+ u → s = t.
Proof.
  intros H.
  assert (∀ a b : string, String.length (a +:+ b)
                            = (String.length a + String.length b)%nat) as Hlen.
  { intros a b. induction a as [|c a IH]; [done|].
    change (S (String.length (a +:+ b))
            = S (String.length a + String.length b)). by rewrite IH. }
  revert t H. induction s as [|a s IH]; intros [|b t] H.
  - done.
  - apply (f_equal String.length) in H. rewrite !Hlen in H.
    cbn in H. lia.
  - apply (f_equal String.length) in H. rewrite !Hlen in H.
    cbn in H. lia.
  - change (String a (s +:+ u) = String b (t +:+ u)) in H.
    injection H as -> H. by rewrite (IH t H).
Qed.

(** The text has the header of tool [name] exactly when a rule of that name
    was emitted. *)
Lemma has_stanza_iff (name : string) (rules : list ResolvedRule) :
  has_stanza name (config_lines rules) ↔ name ∈ map rule_name rules.
Proof.
  unfold has_stanza, config_lines.
  rewrite elem_of_app, !elem_of_cons, elem_of_nil.
  change (map rule_name rules) with (rule_name <$> rules).
  rewrite list_elem_of_fmap. split.
  - intros [[H|[H|[H|[]]]]|H]; [done..|].
    apply list_elem_of_In, in_concat in H as [l [Hl Hin]].
    apply in_map_iff in Hl as [r [<- Hr]].
    exists r. split; [|by apply list_elem_of_In].
    unfold stanza in Hin. cbn [In] in Hin.
    destruct Hin as [H|[H|[H|[H|[]]]]]; try done.
    unfold stanza_header in H.
    apply (inj (String.app "[fix.tools.")) in H.
    symmetry. by apply append_right_inj in H.
  - intros [r [-> Hr]]. right.
    apply list_elem_of_In, in_concat. exists (stanza r). split.
    + apply in_map. by apply list_elem_of_In.
    + by left.
Qed.

Lemma omap_filter {A B : Type} (f g : A → option B) (P : B → Prop)
    `{!∀ b, Decision (P b)} (l : list A) :
  (∀ x, f x = match g x with
              | Some b => if decide (P b) then Some b else None
              | None => None
              end) →
  omap f l = filter P (omap g l).
Proof.
  intros Hfg. induction l as [|x l IH]; [done|].
  cbn [omap list_omap]. rewrite Hfg.
  destruct (g x) as [b|]; [|done].
  rewrite filter_cons. destruct (decide (P b)); by rewrite IH.
Qed.

Lemma tool_rule_with_only (excluded : gset string) (env : gmap string string)
    (global_excludes : list string) (only : gset string)
    (name : string) (config : ToolConfig) :
  tool_rule_with excluded env global_excludes (Some only) name config
  = match tool_rule_with excluded env global_excludes None name config with
    | Some r => if decide (rule_name r ∈ only) then Some r else None
    | None => None
    end.
Proof.
  unfold tool_rule_with, skipped_by_only.
  destruct (decide (name ∈ excluded)); [done|].
  destruct (decide (default EmptyString (cfg_command config) = EmptyString)).
  { by destruct (bool_decide (name ∉ only)). }
  destruct (decide (default [] (cfg_includes config) = [])).
  { by destruct (bool_decide (name ∉ only)). }
  cbn [rule_name].
  destruct (decide (name ∈ only)) as [Hin|Hin].
  - rewrite bool_decide_eq_false_2; [done|]. by intros ?.
  - by rewrite bool_decide_eq_true_2.
Qed.

(** C8. Every emitted rule has a non-empty command and a non-empty list of
    patterns, and a declared tool whose [includes] is missing or empty gets
    no rule and no stanza. *)
Theorem emitted_rules_nonempty (env : gmap string string)
    (treefmt_config : TreefmtConfig) (only_tools : option (gset string)) :
  (∀ r, r ∈ resolved_rules env treefmt_config only_tools →
        rule_command r ≠ [] ∧ rule_patterns r ≠ [])
  ∧ (∀ name config,
       formatters_of treefmt_config !! name = Some config →
       default [] (cfg_includes config) = [] →
       (name ∉ map rule_name (resolved_rules env treefmt_config only_tools))
       ∧ ¬ has_stanza name
             (config_lines (resolved_rules env treefmt_config only_tools))).
Proof.
  split.
  - intros r [config [_ Hr]]%elem_of_resolved_rules_with.
    apply tool_rule_with_Some in Hr as (_&_&_&Hi&->). cbn. split.
    + apply get_stdin_command_nonempty.
    + unfold convert_patterns.
      by destruct (default [] (cfg_includes config)).
  - intros name config Hin Hempty.
    assert (name ∉ map rule_name
                     (resolved_rules env treefmt_config only_tools)) as Hno.
    { intros (config' & Hin' & _ & _ & _ & Hi)%rule_name_emitted.
      congruence. }
    split; [done|]. by rewrite has_stanza_iff.
Qed.

Lemma emitted_rules_nonempty_witness :
  (rule_command {| rule_name := "shfmt";
                   rule_command := ["shfmt"; "-i"; "2"; "-"];
                   rule_patterns := ["glob:'**/*.sh'"] |} ≠ []
   ∧ rule_patterns {| rule_name := "shfmt";
                      rule_command := ["shfmt"; "-i"; "2"; "-"];
                      rule_patterns := ["glob:'**/*.sh'"] |} ≠ [])
  ∧ ("nixfmt" ∉ map rule_name (resolved_rules ∅ sample_config None))
  ∧ ¬ has_stanza "nixfmt" (config_lines (resolved_rules ∅ sample_config None)).
Proof.
  split.
  - apply (proj1 (emitted_rules_nonempty ∅ sample_config None)).
    vm_compute. apply list_elem_of_here.
  - apply (proj2 (emitted_rules_nonempty ∅ sample_config None) "nixfmt"
             (tool_config (Some "nixfmt") None (Some []) None)).
    + reflexivity.
    + reflexivity.
Defined.

(** Scenarios A, B and D of the specification. *)
Example scenario_a_b :
  resolved_rules ∅ scenario_config None
  = [ {| rule_name := "nixfmt"; rule_command := ["nixfmt"];
         rule_patterns := ["glob:'**/*.nix'"] |};
      {| rule_name := "shellcheck";
         rule_command :=
           get_inline_command ∅ "shellcheck" "shellcheck" [] "passthrough";
         rule_patterns := ["glob:'**/*.sh'"] |} ]
  ∧ List.length
      (get_inline_command ∅ "shellcheck" "shellcheck" [] "passthrough")
    = 3%nat.
Proof. split; reflexivity. Qed.

Example scenario_d :
  map rule_name (resolved_rules ∅ scenario_config (Some {["nixfmt"]}))
  = ["nixfmt"].
Proof. reflexivity. Qed.

(** C10. A declared tool whose [command] is missing or the empty string gets
    no rule and no stanza; the generator still returns its text. *)
Theorem tool_without_command_dropped (env : gmap string string)
    (treefmt_config : TreefmtConfig) (only_tools : option (gset string))
    (name : string) (config : ToolConfig) :
  formatters_of treefmt_config !! name = Some config →
  cfg_command config = None ∨ cfg_command config = Some EmptyString →
  (name ∉ map rule_name (resolved_rules env treefmt_config only_tools))
  ∧ ¬ has_stanza name
        (config_lines (resolved_rules env treefmt_config only_tools))
  ∧ generate_jj_config env treefmt_config only_tools
    = String.concat nl
        (config_lines (resolved_rules env treefmt_config only_tools)).
Proof.
  intros Hin Hcmd.
  assert (name ∉ map rule_name
                   (resolved_rules env treefmt_config only_tools)) as Hno.
  { intros (config' & Hin' & _ & _ & Hc & _)%rule_name_emitted.
    assert (config' = config) as -> by congruence.
    by destruct Hcmd as [Hn|Hn]; rewrite Hn in Hc. }
  split; [done|]. split; [|done]. by rewrite has_stanza_iff.
Qed.

Lemma tool_without_command_dropped_witness :
  ("broken" ∉ map rule_name (resolved_rules ∅ sample_config None))
  ∧ ¬ has_stanza "broken"
        (config_lines (resolved_rules ∅ sample_config None))
  ∧ generate_jj_config ∅ sample_config None
    = String.concat nl (config_lines (resolved_rules ∅ sample_config None)).
Proof.
  apply (tool_without_command_dropped ∅ sample_config None "broken"
           (tool_config (Some EmptyString) None (Some ["*.txt"]) None)).
  - reflexivity.
  - right. reflexivity.
Defined.

(** C9, as the code has it.  With an allow-list the rules are those of the
    run without allow-list whose name is in the list, in the same order: a
    tool gets a stanza exactly when it is declared, outside the exclusion
    set, in the allow-list, and has a non-empty command and a non-empty
    [includes].  The exclusion set is tested before the allow-list, so a
    name in both gets no stanza. *)
Theorem only_tools_restricts_rules (excluded : gset string)
    (env : gmap string string) (treefmt_config : TreefmtConfig)
    (only : gset string) :
  resolved_rules_with excluded env treefmt_config (Some only)
  = filter (λ r, rule_name r ∈ only)
      (resolved_rules_with excluded env treefmt_config None)
  ∧ (∀ name,
       has_stanza name
         (config_lines
            (resolved_rules_with excluded env treefmt_config (Some only)))
       ↔ ∃ config,
           formatters_of treefmt_config !! name = Some config
           ∧ (name ∉ excluded) ∧ name ∈ only
           ∧ default EmptyString (cfg_command config) ≠ EmptyString
           ∧ default [] (cfg_includes config) ≠ []).
Proof.
  split.
  - unfold resolved_rules_with. apply omap_filter.
    intros [name config]. apply tool_rule_with_only.
  - intros name. rewrite has_stanza_iff, rule_name_emitted.
    unfold skipped_by_only. split.
    + intros (config & ? & ? & Hsk & ? & ?). exists config.
      apply bool_decide_eq_false in Hsk.
      repeat split; try done. by destruct (decide (name ∈ only)).
    + intros (config & ? & ? & ? & ? & ?). exists config.
      repeat split; try done. apply bool_decide_eq_false. by intros ?.
Qed.

(** C9 as stated fails: [nixfmt] is declared and in the allow-list, but it
    has no include pattern and gets no stanza. *)
Lemma allow_listed_tool_without_stanza :
  ¬ (∀ env treefmt_config only name,
       has_stanza name
         (config_lines (resolved_rules env treefmt_config (Some only)))
       ↔ is_Some (formatters_of treefmt_config !! name) ∧ name ∈ only).
Proof.
  intros H.
  destruct (H ∅ sample_config {["nixfmt"]} "nixfmt") as [_ Hback].
  assert (has_stanza "nixfmt"
            (config_lines
               (resolved_rules ∅ sample_config (Some {["nixfmt"]})))) as Hst.
  { apply Hback. split; [by eexists|]. by apply elem_of_singleton. }
  apply has_stanza_iff, rule_name_emitted in Hst
    as (config & Hin & _ & _ & _ & Hi).
  vm_compute in Hin. injection Hin as <-. by apply Hi.
Qed.

(** ** The wrapper script at run time *)

(** The text [get_inline_command] returns is the script [inline_script],
    printed. *)
Lemma get_inline_command_render (env : gmap string string)
    (name command : string) (options : list string) (mode : string) :
  get_inline_command env name command options mode
  = ["bash"; "-c"; Sh.render (inline_script env name command options mode)].
Proof.
  unfold get_inline_command, inline_script, Sh.render.
  cbn [map String.concat Sh.render_command].
  destruct (decide (mode = "passthrough"));
    cbn [Sh.render_redirection]; do 2 f_equal;
    rewrite !append_assoc; reflexivity.
Qed.

(** The run of the script, step by step: the world it ends in. *)
Lemma run_inline_script (env : gmap string string)
    (name command : string) (options : list string) (mode : string)
    (input tmp : string) (tools : string → Sh.tool) (fs : gmap string string) :
  let o := tools command (inline_filtered_opts options ++ [tmp])
             (<[tmp := input]> (<[tmp := EmptyString]> fs)) in
  let redirected :=
    Sh.apply_redirection
      (if decide (mode = "passthrough") then Sh.OutToErr else Sh.AllToNull)
      (Sh.writes o) in
  Sh.run input tmp tools fs (inline_script env name command options mode)
  = {| Sh.files := delete tmp (Sh.files_after o);
       Sh.var_t := tmp;
       Sh.written :=
         match Sh.files_after o !! tmp with
         | Some content => redirected ++ [(Sh.Stdout, content)]
         | None =>
             redirected
               ++ [(Sh.Stderr, "cat: " +:+ tmp +:+ ": No such file or directory")]
               ++ [(Sh.Stderr, "rm: cannot remove " +:+ tmp)]
         end |}.
Proof.
  intros o redirected. unfold Sh.run, inline_script.
  cbn [foldl Sh.step Sh.files Sh.var_t Sh.written app].
  fold o. fold redirected.
  destruct (Sh.files_after o !! tmp) as [content|] eqn:E.
  - by rewrite app_nil_r.
  - by rewrite <- app_assoc.
Qed.

Lemma on_app (s : Sh.stream) (w1 w2 : list (Sh.stream * string)) :
  Sh.on s (w1 ++ w2) = Sh.on s w1 +:+ Sh.on s w2.
Proof.
  unfold Sh.on. rewrite omap_app.
  generalize (omap (λ p, match s, p.1 with
                         | Sh.Stdout, Sh.Stdout | Sh.Stderr, Sh.Stderr => Some p.2
                         | _, _ => None
                         end) w2).
  induction (omap _ w1) as [|x l IH]; intros l2; [done|].
  cbn [app String.concat]. destruct l as [|y l].
  - destruct l2 as [|z l2]; cbn [app String.concat].
    + by rewrite append_nil_r.
    + done.
  - cbn [app]. cbn [app] in IH. rewrite (IH l2). by rewrite !append_assoc.
Qed.

Lemma on_stdout_redirected (r : Sh.redirection) (w : list (Sh.stream * string)) :
  Sh.on Sh.Stdout (Sh.apply_redirection r w) = EmptyString.
Proof.
  destruct r; [|done]. unfold Sh.on, Sh.apply_redirection.
  by induction w as [|p w IH].
Qed.

(** What the wrapper script writes to its standard output: the content of
    the temporary file as the tool left it, and nothing of what the tool
    wrote itself. *)
Lemma inline_script_stdout (env : gmap string string)
    (name command : string) (options : list string) (mode : string)
    (input tmp : string) (tools : string → Sh.tool) (fs : gmap string string) :
  Sh.stdout
    (Sh.run input tmp tools fs (inline_script env name command options mode))
  = default EmptyString
      (Sh.files_after
         (tools command (inline_filtered_opts options ++ [tmp])
            (<[tmp := input]> (<[tmp := EmptyString]> fs))) !! tmp).
Proof.
  unfold Sh.stdout. rewrite run_inline_script. cbn [Sh.written].
  destruct (Sh.files_after _ !! tmp) as [content|].
  - by rewrite on_app, on_stdout_redirected.
  - by rewrite on_app, on_stdout_redirected.
Qed.

(** A tool that leaves the temporary file alone gets the original input
    passed through. *)
Lemma inline_script_stdout_unchanged (env : gmap string string)
    (name command : string) (options : list string) (mode : string)
    (input tmp : string) (tools : string → Sh.tool) (fs : gmap string string) :
  Sh.files_after
    (tools command (inline_filtered_opts options ++ [tmp])
       (<[tmp := input]> (<[tmp := EmptyString]> fs))) !! tmp = Some input →
  Sh.stdout
    (Sh.run input tmp tools fs (inline_script env name command options mode))
  = input.
Proof. intros H. by rewrite inline_script_stdout, H. Qed.

(** C1 at a failing input.  [statix] is a passthrough linter; run with the
    option [fix] it rewrites the file it is given.  The script then prints
    the rewritten file, not the original input, on standard output (what the
    tool printed itself does go to the diagnostic stream). *)
Theorem passthrough_emits_rewritten_content :
  let script := inline_script ∅ "statix" "statix" ["fix"] "passthrough" in
  let w := Sh.run "x = 1" "/tmp/tmp.k3J9.nix" (λ _, fixing_tool) ∅ script in
  classify "statix" = WrappedPassthrough
  ∧ get_stdin_command ∅ "statix" "statix" ["fix"] (wrapper_type_of "statix")
    = ["bash"; "-c"; Sh.render script]
  ∧ Sh.stdout w = "fixed"
  ∧ Sh.stdout w ≠ "x = 1"
  ∧ Sh.stderr w = "1 fix appliedwarning".
Proof.
  intros script w. split; [reflexivity|]. split; [reflexivity|].
  split; [reflexivity|]. split; [|reflexivity].
  vm_compute. discriminate.
Qed.

(** * Further properties of the program *)

(** ** Globs *)

(** X1. A bare extension glob and the same glob written with [**/] in front
    resolve to the same query. *)
Theorem glob_bare_extension_is_recursive (rest : string) :
  glob_to_jj_pattern ("*." +:+ rest) = glob_to_jj_pattern ("**/*." +:+ rest).
Proof.
  unfold glob_to_jj_pattern.
  change ("**/*." +:+ rest) with ("**/" +:+ "*." +:+ rest).
  rewrite (prefix_app "**/" ("*." +:+ rest)).
  replace (String.prefix "**/" ("*." +:+ rest)) with false by (by destruct rest).
  by rewrite (prefix_app "*." rest).
Qed.

(** ** Base names *)

Lemma split_on_nonempty (sep : ascii) (s : string) : split_on sep s ≠ [].
Proof.
  destruct s as [|c s]; [done|]. cbn.
  destruct (Ascii.eqb c sep); [done|]. by destruct (split_on sep s).
Qed.

Lemma split_on_app (sep : ascii) (a b : string) :
  split_on sep (a +:+ String sep b) = split_on sep a ++ split_on sep b.
Proof.
  induction a as [|c a IH].
  - change (split_on sep (String sep b) = [EmptyString] ++ split_on sep b).
    cbn. by rewrite Ascii.eqb_refl.
  - change (split_on sep (String c (a +:+ String sep b))
            = split_on sep (String c a) ++ split_on sep b).
    cbn. destruct (Ascii.eqb c sep); [by rewrite IH|].
    rewrite IH. pose proof (split_on_nonempty sep a).
    by destruct (split_on sep a).
Qed.

Lemma split_on_free (sep : ascii) (s : string) :
  free_of sep s → split_on sep s = [s].
Proof.
  unfold free_of. induction s as [|c s IH]; [done|].
  cbn. rewrite not_elem_of_cons. intros [Hc Hs].
  destruct (Ascii.eqb c sep) eqn:E.
  - apply Ascii.eqb_eq in E. congruence.
  - by rewrite (IH Hs).
Qed.

Lemma path_name_base (dir base : string) :
  free_of "/"%char base → base ≠ EmptyString → base ≠ "." →
  path_name (dir +:+ "/" +:+ base) = base ∧ path_name base = base.
Proof.
  intros Hfree Hne Hdot. unfold path_name, path_parts. split.
  - change (dir +:+ "/" +:+ base) with (dir +:+ String "/"%char base).
    rewrite split_on_app, (split_on_free _ base Hfree), filter_app.
    rewrite (filter_cons _ base), decide_True by done.
    by rewrite filter_nil, last_snoc.
  - rewrite (split_on_free _ base Hfree).
    by rewrite filter_cons, decide_True by done.
Qed.

(** X2. On the stdin path a command given with its directory is treated like
    the bare command: the options kept and the stdin arguments added are
    those of its base name. *)
Theorem stdin_command_ignores_directory (env : gmap string string)
    (name dir base : string) (options : list string)
    (wrapper_type : option string) :
  classify name = DirectStdin →
  free_of "/"%char base → base ≠ EmptyString → base ≠ "." →
  tail (get_stdin_command env name (dir +:+ "/" +:+ base) options wrapper_type)
  = tail (get_stdin_command env name base options wrapper_type).
Proof.
  intros [Hw Hp]%classify_direct Hfree Hne Hdot.
  destruct (path_name_base dir base Hfree Hne Hdot) as [H1 H2].
  rewrite !get_stdin_command_direct by done. cbn [tail].
  by rewrite H1, H2.
Qed.

Lemma stdin_command_ignores_directory_witness :
  tail (get_stdin_command ∅ "ruff-format"
          ("/nix/store/abc-ruff/bin" +:+ "/" +:+ "ruff") ["format"] None)
  = tail (get_stdin_command ∅ "ruff-format" "ruff" ["format"] None).
Proof.
  apply (stdin_command_ignores_directory ∅ "ruff-format"
           "/nix/store/abc-ruff/bin" "ruff" ["format"] None).
  - reflexivity.
  - unfold free_of. cbn. rewrite !not_elem_of_cons. repeat split; try done.
    apply not_elem_of_nil.
  - discriminate.
  - discriminate.
Defined.

(** X3. On the stdin path none of the flags that ask a tool to write its
    files is among the arguments passed to the command. *)
Theorem stdin_command_has_no_write_flag (env : gmap string string)
    (name command : string) (options : list string)
    (wrapper_type : option string) (flag : string) :
  classify name = DirectStdin →
  flag ∈ ["-w"; "--write"; "-e"; "--edit"; "--fix"; "--inplace"] →
  flag ∉ tail (get_stdin_command env name command options wrapper_type).
Proof.
  intros [Hw Hp]%classify_direct Hflag.
  rewrite get_stdin_command_direct by done. cbn [tail].
  rewrite elem_of_app. intros [Hin|Hin].
  - unfold stdin_filtered_opts in Hin. apply without_spec in Hin as [_ Hn].
    apply Hn. unfold stdin_exclude.
    destruct (decide _); [apply elem_of_app; by left|done].
  - unfold stdin_args in Hin.
    destruct (STDIN_ARGS !! path_name command) as [args|] eqn:E;
      [|by apply elem_of_nil in Hin].
    apply stdin_args_table in E. cbn [default] in Hin.
    revert Hin. change ((λ kv : string * list string, flag ∉ kv.2)
                          (path_name command, args)).
    revert E. apply Forall_forall.
    rewrite !elem_of_cons, elem_of_nil in Hflag.
    repeat (constructor; [cbn; rewrite ?elem_of_cons, ?elem_of_nil;
                          intros H; repeat destruct H as [H|H];
                          repeat destruct Hflag as [Hflag|Hflag];
                          congruence|]).
    constructor.
Qed.

Lemma stdin_command_has_no_write_flag_witness :
  "--write" ∉ tail (get_stdin_command ∅ "prettier" "prettier"
                      ["--write"; "--tab-width=2"] None).
Proof.
  apply (stdin_command_has_no_write_flag ∅ "prettier" "prettier"
           ["--write"; "--tab-width=2"] None "--write").
  - reflexivity.
  - apply list_elem_of_further, list_elem_of_here.
Defined.

(** ** Rendering of arrays *)

Lemma append_cons (a : ascii) (s t : string) :
  String a s +:+ t = String a (s +:+ t).
Proof. reflexivity. Qed.

Lemma replace_char_app (c : ascii) (r s t : string) :
  replace_char c r (s +:+ t) = replace_char c r s +:+ replace_char c r t.
Proof.
  induction s as [|a s IH]; [done|].
  rewrite append_cons. cbn [replace_char]. by rewrite IH, append_assoc.
Qed.

(** X4. The two replacements of [to_toml_array] act on an item character by
    character: a backslash becomes two, a double quote gets a backslash in
    front, any other character stays, and the second replacement never
    touches what the first one wrote. *)
Theorem escape_item_by_character :
  escape_item EmptyString = EmptyString
  ∧ (∀ a item,
       escape_item (String a item) = escape_char a +:+ escape_item item)
  ∧ (∀ items,
       to_toml_array items
       = "[" +:+ String.concat ", " (map quote_item items) +:+ "]").
Proof.
  split; [done|]. split; [|done].
  intros a item. unfold escape_item, escape_char. cbn [replace_char].
  rewrite replace_char_app.
  destruct (Ascii.eqb a (ascii_of_nat 92)) eqn:E92; [done|].
  cbn [replace_char]. by destruct (Ascii.eqb a (ascii_of_nat 34)).
Qed.

Lemma escape_item_cons (a : ascii) (item : string) :
  escape_item (String a item) = escape_char a +:+ escape_item item.
Proof.
  unfold escape_item, escape_char. cbn [replace_char].
  rewrite replace_char_app.
  destruct (Ascii.eqb a (ascii_of_nat 92)) eqn:E92; [done|].
  cbn [replace_char]. by destruct (Ascii.eqb a (ascii_of_nat 34)).
Qed.

(** An escaped item followed by a double quote can be read back in one way
    only. *)
Lemma escape_item_unique (a b r1 r2 : string) :
  escape_item a +:+ dq +:+ r1 = escape_item b +:+ dq +:+ r2 →
  a = b ∧ r1 = r2.
Proof.
  revert b. induction a as [|c a IH]; intros [|d b] H.
  - split; [done|]. injection H as H. exact H.
  - exfalso. rewrite escape_item_cons in H. unfold escape_char in H.
    destruct (Ascii.eqb d (ascii_of_nat 92)) eqn:E92; [discriminate H|].
    destruct (Ascii.eqb d (ascii_of_nat 34)) eqn:E34; [discriminate H|].
    rewrite append_cons in H. injection H as H _.
    rewrite <- H in E34. discriminate E34.
  - exfalso. rewrite escape_item_cons in H. unfold escape_char in H.
    destruct (Ascii.eqb c (ascii_of_nat 92)) eqn:E92; [discriminate H|].
    destruct (Ascii.eqb c (ascii_of_nat 34)) eqn:E34; [discriminate H|].
    rewrite append_cons in H. injection H as H _.
    rewrite H in E34. discriminate E34.
  - rewrite !escape_item_cons in H. unfold escape_char in H.
    destruct (Ascii.eqb c (ascii_of_nat 92)) eqn:Ec92;
      destruct (Ascii.eqb d (ascii_of_nat 92)) eqn:Ed92.
    + apply Ascii.eqb_eq in Ec92, Ed92. subst.
      injection H as H. destruct (IH _ H) as [-> ->]. done.
    + exfalso. destruct (Ascii.eqb d (ascii_of_nat 34)) eqn:Ed34.
      * discriminate H.
      * rewrite !append_cons in H. injection H as H _.
        rewrite <- H in Ed92. discriminate Ed92.
    + exfalso. destruct (Ascii.eqb c (ascii_of_nat 34)) eqn:Ec34.
      * discriminate H.
      * rewrite !append_cons in H. injection H as H _.
        rewrite H in Ec92. discriminate Ec92.
    + destruct (Ascii.eqb c (ascii_of_nat 34)) eqn:Ec34;
        destruct (Ascii.eqb d (ascii_of_nat 34)) eqn:Ed34.
      * apply Ascii.eqb_eq in Ec34, Ed34. subst.
        injection H as H. destruct (IH _ H) as [-> ->]. done.
      * exfalso. rewrite !append_cons in H. injection H as H _.
        rewrite <- H in Ed92. discriminate Ed92.
      * exfalso. rewrite !append_cons in H. injection H as H _.
        rewrite H in Ec92. discriminate Ec92.
      * rewrite !append_cons in H. injection H as -> H.
        destruct (IH _ H) as [-> ->]. done.
Qed.

Lemma quoted_items_unique (l1 l2 : list string) (r1 r2 : string) :
  String.concat ", " (map quote_item l1) +:+ "]" +:+ r1
  = String.concat ", " (map quote_item l2) +:+ "]" +:+ r2 →
  l1 = l2 ∧ r1 = r2.
Proof.
  revert l2. induction l1 as [|x l1 IH]; intros [|y l2] H.
  - split; [done|]. injection H as H. exact H.
  - exfalso. cbn [map String.concat] in H.
    destruct (map quote_item l2); discriminate H.
  - exfalso. cbn [map String.concat] in H.
    destruct (map quote_item l1); discriminate H.
  - assert (∀ z l, String.concat ", " (map quote_item (z :: l))
                   = dq +:+ escape_item z +:+ dq +:+
                       match l with
                       | [] => EmptyString
                       | _ => ", " +:+ String.concat ", " (map quote_item l)
                       end) as Hcons.
    { intros z [|z' l]; cbn [map String.concat]; unfold quote_item.
      - by rewrite ?append_assoc, ?append_nil_r.
      - by rewrite ?append_assoc. }
    rewrite !Hcons in H. rewrite ?append_assoc in H.
    change (dq +:+ ?s) with (String (ascii_of_nat 34) s) in H.
    injection H as H.
    apply escape_item_unique in H as [-> H].
    destruct l1 as [|x' l1], l2 as [|y' l2].
    + split; [done|]. injection H as H. exact H.
    + discriminate H.
    + discriminate H.
    + injection H as H. destruct (IH (y' :: l2) H) as [Heq ->].
      by rewrite Heq.
Qed.

(** X5. A rendered array determines its items: two lists of strings with the
    same rendering are the same list. *)
Theorem to_toml_array_injective (items1 items2 : list string) :
  to_toml_array items1 = to_toml_array items2 → items1 = items2.
Proof.
  intros H.
  change (to_toml_array items1)
    with ("[" +:+ String.concat ", " (map quote_item items1) +:+ "]"
            +:+ EmptyString) in H.
  change (to_toml_array items2)
    with ("[" +:+ String.concat ", " (map quote_item items2) +:+ "]"
            +:+ EmptyString) in H.
  injection H as H. by apply quoted_items_unique in H as [-> _].
Qed.

Lemma to_toml_array_injective_witness :
  ["a, b"; "c"] = ["a, b"; "c"].
Proof.
  apply (to_toml_array_injective ["a, b"; "c"] ["a, b"; "c"]). reflexivity.
Defined.

(** ** Order of the stanzas *)

#[local] Instance item_le_total : Total item_le.
Proof. intros a b. unfold item_le. apply String.leb_total. Qed.

#[local] Instance item_le_trans : Transitive item_le.
Proof.
  intros a b c. unfold item_le. rewrite <- !Is_true_true.
  apply (transitivity (R := String.le)).
Qed.

Lemma leb_ne_ltb (a b : string) :
  String.leb a b = true → a ≠ b → String.ltb a b = true.
Proof.
  unfold String.leb, String.ltb. intros Hle Hne.
  destruct (String.compare a b) eqn:E; [|done|done].
  by apply String.compare_eq_iff in E.
Qed.

Lemma sorted_items_strictly (formatters : gmap string ToolConfig) :
  StronglySorted (λ a b : string * ToolConfig, String.ltb a.1 b.1 = true)
    (sorted_items formatters).
Proof.
  assert (StronglySorted item_le (sorted_items formatters)) as Hs.
  { apply StronglySorted_merge_sort; apply _. }
  assert (NoDup (sorted_items formatters).*1) as Hnd.
  { unfold sorted_items. rewrite merge_sort_Permutation.
    apply NoDup_fst_map_to_list. }
  induction Hs as [|x l Hs IH Hall]; [constructor|].
  rewrite fmap_cons in Hnd. apply NoDup_cons in Hnd as [Hx Hnd].
  constructor; [by apply IH|].
  apply Forall_forall. intros y Hy.
  rewrite Forall_forall in Hall. apply leb_ne_ltb; [by apply Hall|].
  intros Heq. apply Hx. rewrite Heq. by apply list_elem_of_fmap_2.
Qed.

(** X6. The rules come out in strictly increasing order of their names
    (bytewise), so no tool has two stanzas and the output does not depend on
    the order of the tables in the input. *)
Theorem resolved_rules_sorted (env : gmap string string)
    (treefmt_config : TreefmtConfig) (only_tools : option (gset string)) :
  StronglySorted (λ a b, String.ltb a b = true)
    (map rule_name (resolved_rules env treefmt_config only_tools)).
Proof.
  unfold resolved_rules, resolved_rules_with.
  pose proof (sorted_items_strictly (formatters_of treefmt_config)) as Hs.
  induction Hs as [|[name config] l Hs IH Hall]; [constructor|].
  cbn [omap list_omap fst snd].
  destruct (tool_rule_with _ _ _ _ name config) as [r|] eqn:Hr; [|exact IH].
  apply tool_rule_with_Some in Hr as (_&_&_&_&->).
  cbn [map rule_name]. constructor; [exact IH|].
  apply Forall_forall. intros n Hn.
  change (map rule_name ?x) with (rule_name <$> x) in Hn.
  apply list_elem_of_fmap in Hn as [r [-> Hrin]].
  apply list_elem_of_omap in Hrin as [[n' c'] [Hin Hr']].
  apply tool_rule_with_Some in Hr' as (_&_&_&_&->). cbn [rule_name fst].
  rewrite Forall_forall in Hall. by apply (Hall (n', c')).
Qed.

(** ** List mode *)



Lemma wrapped_sets_disjoint (name : string) :
  name ∈ NEEDS_WRAPPER → name ∈ PASSTHROUGH_LINTERS → False.
Proof.
  unfold NEEDS_WRAPPER, PASSTHROUGH_LINTERS.
  rewrite !elem_of_union, !elem_of_singleton.
  intros [[->| ->]| ->] [?|?]; discriminate.
Qed.

(** X8. The tag of list mode tells how the generator treats the tool:
    [wrapper] exactly for the tools it wraps in edit mode, [linter] exactly
    for those it wraps in passthrough mode, no tag for the stdin path. *)
Theorem tool_status_matches_wrapper (name : string) :
  (tool_status name = " [wrapper]" ↔ wrapper_type_of name = Some "edit")
  ∧ (tool_status name = " [linter]"
     ↔ wrapper_type_of name = Some "passthrough")
  ∧ (tool_status name = EmptyString ↔ wrapper_type_of name = None).
Proof.
  unfold tool_status, wrapper_type_of.
  destruct (decide (name ∈ PASSTHROUGH_LINTERS)) as [Hp|Hp];
    destruct (decide (name ∈ NEEDS_WRAPPER)) as [Hw|Hw].
  - destruct (wrapped_sets_disjoint name Hw Hp).
  - repeat split; done.
  - repeat split; done.
  - repeat split; done.
Qed.

(** ** Command line *)

(** X9. [parse_args] cuts the arguments at the first [--]: what is before it
    (with no [--] in it) and what is after it give the arguments back; with
    no [--] everything is for the program itself and nothing is passed on. *)
Theorem parse_args_split (args : list string) :
  ("--" ∈ args →
     args = (parse_args args).1 ++ "--" :: (parse_args args).2
     ∧ "--" ∉ (parse_args args).1)
  ∧ ("--" ∉ args → parse_args args = (args, [])).
Proof.
  unfold parse_args, list_index.
  destruct (list_find (λ y, y = "--") args) as [[i x]|] eqn:E; cbn [fmap option_fmap option_map fst snd].
  - apply list_find_Some in E as (Hi & -> & Hbefore). split.
    + intros _. split.
      * symmetry. by apply take_drop_middle.
      * intros [j Hj]%list_elem_of_lookup_1.
        apply lookup_take_Some in Hj as [Hj Hlt].
        by apply (Hbefore j "--").
    + intros Hno. destruct Hno. by apply list_elem_of_lookup_2 in Hi.
  - apply list_find_None in E. rewrite Forall_forall in E. split.
    + intros Hin. by destruct (E "--" Hin).
    + done.
Qed.

Lemma parse_args_split_witness :
  ["--print"; "--"; "-s"; "--"; "x"]
  = (parse_args ["--print"; "--"; "-s"; "--"; "x"]).1
      ++ "--" :: (parse_args ["--print"; "--"; "-s"; "--"; "x"]).2
  ∧ "--" ∉ (parse_args ["--print"; "--"; "-s"; "--"; "x"]).1.
Proof.
  apply (proj1 (parse_args_split ["--print"; "--"; "-s"; "--"; "x"])).
  apply list_elem_of_further, list_elem_of_here.
Defined.

Lemma only_step_invariant (jmt_args : list string)
    (only_tools : option (gset string)) (arg : string) (only : gset string) :
  (∀ s, only_tools = Some s → s ≠ ∅) →
  only_step jmt_args only_tools arg = Some only → only ≠ ∅.
Proof.
  assert (∀ value, list_to_set (C := gset string) (split_on ","%char value) ≠ ∅)
    as Hsplit.
  { intros value. pose proof (split_on_nonempty ","%char value).
    destruct (split_on ","%char value) as [|x l]; [done|].
    rewrite list_to_set_cons. set_solver. }
  intros Hinv. unfold only_step.
  destruct (String.prefix "--only=" arg).
  { intros [= <-]. apply Hsplit. }
  destruct (decide (arg = "--only")); [|by apply Hinv].
  destruct (list_index arg jmt_args) as [idx|]; [|by apply Hinv].
  destruct (jmt_args !! S idx) as [value|]; [|by apply Hinv].
  intros [= <-]. apply Hsplit.
Qed.

Lemma only_step_untouched (jmt_args : list string)
    (only_tools : option (gset string)) (arg : string) :
  String.prefix "--only=" arg = false → arg ≠ "--only" →
  only_step jmt_args only_tools arg = only_tools.
Proof.
  intros Hp Hne. unfold only_step. rewrite Hp. by rewrite decide_False.
Qed.

(** X10. The allow-list read from the command line is never the empty set,
    and there is one only if some argument is [--only] or starts with
    [--only=]. *)
Theorem parse_only_nonempty (jmt_args : list string) (only : gset string) :
  parse_only jmt_args = Some only →
  only ≠ ∅
  ∧ ∃ arg, arg ∈ jmt_args
           ∧ (String.prefix "--only=" arg = true ∨ arg = "--only").
Proof.
  unfold parse_only. generalize jmt_args at 1 as all_args.
  intros all_args.
  assert (∀ l acc,
            (∀ s, acc = Some s → s ≠ ∅) →
            foldl (only_step all_args) acc l = Some only →
            only ≠ ∅
            ∧ (acc = Some only
               ∨ ∃ arg, arg ∈ l
                        ∧ (String.prefix "--only=" arg = true
                           ∨ arg = "--only"))) as Hgen.
  { induction l as [|arg l IH]; intros acc Hinv Hfold.
    - cbn in Hfold. split; [by apply Hinv|by left].
    - cbn [foldl] in Hfold.
      destruct (IH (only_step all_args acc arg)) as [Hne Hwhere];
        [intros s; by apply only_step_invariant|done|].
      split; [done|].
      destruct Hwhere as [Hstep|(arg' & Hin & Harg)].
      + destruct (String.prefix "--only=" arg) eqn:Hp.
        { right. exists arg. split; [apply list_elem_of_here|by left]. }
        destruct (decide (arg = "--only")) as [->|Hno].
        { right. exists "--only". split; [apply list_elem_of_here|by right]. }
        left. by rewrite only_step_untouched in Hstep.
      + right. exists arg'. split; [by apply list_elem_of_further|done]. }
  intros Hfold. destruct (Hgen jmt_args None) as [Hne [?|?]]; done.
Qed.

Lemma parse_only_nonempty_witness :
  ({["a"; "b"]} : gset string) ≠ ∅
  ∧ ∃ arg, arg ∈ ["--print"; "--only=a,b"]
           ∧ (String.prefix "--only=" arg = true ∨ arg = "--only").
Proof.
  apply (parse_only_nonempty ["--print"; "--only=a,b"] {["a"; "b"]}).
  vm_compute. reflexivity.
Defined.

(** ** The generated section of the host file *)

Lemma str_take_drop (n : nat) (s : string) :
  str_take n s +:+ str_drop n s = s.
Proof.
  revert s. induction n as [|n IH]; intros [|a s]; try done.
  cbn [str_take str_drop]. rewrite append_cons. by rewrite IH.
Qed.

Lemma str_drop_add (n m : nat) (s : string) :
  str_drop (n + m) s = str_drop m (str_drop n s).
Proof.
  revert s. induction n as [|n IH]; intros s; [done|].
  destruct s as [|a s]; [by destruct m|]. cbn [Nat.add str_drop]. apply IH.
Qed.

Lemma str_take_app (pre t : string) :
  str_take (String.length pre) (pre +:+ t) = pre.
Proof.
  induction pre as [|a pre IH]; [done|].
  rewrite append_cons. cbn [String.length str_take]. by rewrite IH.
Qed.

Lemma str_drop_app (pre t : string) :
  str_drop (String.length pre) (pre +:+ t) = t.
Proof.
  induction pre as [|a pre IH]; [done|].
  rewrite append_cons. cbn [String.length str_drop]. exact IH.
Qed.

Lemma str_index_cons (pat : string) (a : ascii) (s : string) :
  str_index pat (String a s)
  = if String.prefix pat (String a s) then Some O
    else S <$> str_index pat s.
Proof. reflexivity. Qed.

Lemma str_index_Some (pat s : string) (i : nat) :
  str_index pat s = Some i → String.prefix pat (str_drop i s) = true.
Proof.
  revert i. induction s as [|a s IH]; intros i H.
  - destruct pat; [|discriminate H]. by destruct i.
  - rewrite str_index_cons in H.
    destruct (String.prefix pat (String a s)) eqn:E.
    + injection H as <-. exact E.
    + destruct (str_index pat s) as [j|] eqn:Ej; [|discriminate H].
      injection H as <-. cbn [str_drop]. by apply IH.
Qed.

Lemma prefix_take (pat s : string) (n : nat) :
  String.prefix pat (str_take n s) = true → String.prefix pat s = true.
Proof.
  revert s n. induction pat as [|a pat IH]; intros s n H; [by destruct s|].
  destruct n as [|n], s as [|b s]; try done.
  cbn [str_take] in H. cbn in *.
  destruct (ascii_dec a b); [|done]. by apply (IH s n).
Qed.

Lemma str_index_take (pat s : string) (i : nat) :
  pat ≠ EmptyString →
  str_index pat s = Some i → str_index pat (str_take i s) = None.
Proof.
  intros Hpat. revert i. induction s as [|a s IH]; intros i H.
  - destruct pat; [done|]. by destruct i.
  - rewrite str_index_cons in H.
    destruct (String.prefix pat (String a s)) eqn:E.
    + injection H as <-. by destruct pat.
    + destruct (str_index pat s) as [j|] eqn:Ej; [|discriminate H].
      injection H as <-. cbn [str_take]. rewrite str_index_cons.
      destruct (String.prefix pat (String a (str_take j s))) eqn:E'.
      * apply (prefix_take pat (String a s) (S j)) in E'. congruence.
      * by rewrite (IH j).
Qed.

Lemma section_end_cons (a : ascii) (s : string) :
  section_end (String a s)
  = if String.prefix (nl +:+ "[") (String a s)
       && negb (String.prefix "fix.tools." (str_drop 2 (String a s)))
    then Some O else S <$> section_end s.
Proof. reflexivity. Qed.

Lemma section_end_Some (s : string) (e : nat) :
  section_end s = Some e →
  String.prefix (nl +:+ "[") (str_drop e s) = true
  ∧ String.prefix (nl +:+ "[fix.tools.") (str_drop e s) = false.
Proof.
  revert e. induction s as [|a s IH]; intros e H; [discriminate H|].
  rewrite section_end_cons in H.
  destruct (String.prefix (nl +:+ "[") (String a s)) eqn:E1.
  - destruct (String.prefix "fix.tools." (str_drop 2 (String a s))) eqn:E2.
    + cbn [negb andb] in H.
      destruct (section_end s) as [j|] eqn:Ej; [|discriminate H].
      injection H as <-. cbn [str_drop]. by apply IH.
    + injection H as <-. cbn [str_drop]. split; [done|].
      apply prefix_inv in E1 as [r Hr].
      change ((nl +:+ "[") +:+ r)
        with (String (ascii_of_nat 10) (String "[" r)) in Hr.
      injection Hr as -> ->. cbn [str_drop] in E2.
      change (nl +:+ "[fix.tools.") with
        (String (ascii_of_nat 10) (String "[" "fix.tools.")).
      cbn [String.prefix].
      destruct (ascii_dec (ascii_of_nat 10) (ascii_of_nat 10)); [|done].
      destruct (ascii_dec "[" "["); [|done]. exact E2.
  - cbn [andb] in H.
    destruct (section_end s) as [j|] eqn:Ej; [|discriminate H].
    injection H as <-. cbn [str_drop]. by apply IH.
Qed.

Lemma free_of_cons (c a : ascii) (s : string) :
  free_of c (String a s) ↔ c ≠ a ∧ free_of c s.
Proof. unfold free_of. cbn [list_ascii_of_string]. apply not_elem_of_cons. Qed.

(** The search passes over a text with no line feed in it. *)
Lemma section_end_line (l rest : string) :
  one_line l →
  section_end (l +:+ rest)
  = (λ n, String.length l + n)%nat <$> section_end rest.
Proof.
  induction l as [|a l IH]; intros Hl.
  - change (EmptyString +:+ rest) with rest. by destruct (section_end rest).
  - apply free_of_cons in Hl as [Ha Hl].
    rewrite append_cons, section_end_cons.
    change (nl +:+ "[") with (String (ascii_of_nat 10) "[").
    cbn [String.prefix].
    destruct (ascii_dec (ascii_of_nat 10) a); [done|].
    cbn [andb]. rewrite (IH Hl). by destruct (section_end rest).
Qed.

Lemma one_line_marker : one_line marker.
Proof.
  unfold one_line, marker. rewrite !free_of_cons.
  repeat split; try done. apply not_elem_of_nil.
Qed.

Lemma section_end_marker (r : string) :
  section_end (marker +:+ r) = (λ n, 18 + n)%nat <$> section_end r.
Proof. apply (section_end_line marker r one_line_marker). Qed.

(** X13. Removing the old generated section from the text of the host file
    cuts out one contiguous piece and keeps the rest in place: the text
    before the first marker stays (and holds no marker), the piece cut out
    starts with the marker unless nothing is cut, and what is kept after it
    is either nothing or starts at a line feed and an opening bracket that
    [fix.tools.] does not follow. *)
Theorem remove_old_section_cut (existing : string) :
  ∃ before removed kept,
    existing = before +:+ removed +:+ kept
    ∧ remove_old_section existing = before +:+ kept
    ∧ str_index marker before = None
    ∧ (removed = EmptyString ∧ kept = EmptyString
       ∨ String.prefix marker removed = true)
    ∧ (kept = EmptyString
       ∨ String.prefix (nl +:+ "[") kept = true
         ∧ String.prefix (nl +:+ "[fix.tools.") kept = false).
Proof.
  unfold remove_old_section.
  destruct (str_index marker existing) as [i|] eqn:Hi.
  - pose proof (str_index_Some _ _ _ Hi) as Hp.
    apply prefix_inv in Hp as [r Hr].
    pose proof (str_index_take marker existing i ltac:(done) Hi) as Hb.
    cbv zeta. rewrite Hr, section_end_marker.
    destruct (section_end r) as [e|] eqn:He.
    + exists (str_take i existing), (marker +:+ str_take e r), (str_drop e r).
      assert (str_drop (i + (18 + e)) existing = str_drop e r) as Hd.
      { rewrite str_drop_add, Hr, str_drop_add.
        by change (str_drop 18 (marker +:+ r)) with r. }
      cbn [fmap option_fmap option_map]. rewrite Hd.
      split; [|split; [done|split; [done|split]]].
      * rewrite append_assoc, str_take_drop, <- Hr. by rewrite str_take_drop.
      * right. apply prefix_app.
      * right. by apply section_end_Some.
    + exists (str_take i existing), (marker +:+ r), EmptyString.
      cbn [fmap option_fmap option_map].
      split; [|split; [by rewrite append_nil_r|split; [done|split]]].
      * rewrite append_nil_r, <- Hr. by rewrite str_take_drop.
      * right. apply prefix_app.
      * by left.
  - exists existing, EmptyString, EmptyString.
    repeat split; try done.
    + by rewrite !append_nil_r.
    + by rewrite append_nil_r.
    + by left.
    + by left.
Qed.

(** The marker cannot start inside a text and run over into a marker that
    follows the text. *)
Lemma marker_no_straddle (s t : string) :
  s ≠ EmptyString →
  String.prefix marker (s +:+ marker +:+ t) = true →
  String.prefix marker s = true.
Proof.
  intros Hs H. apply prefix_inv in H as [rest H]. unfold marker in H.
  destruct s as [|c s]; [done|].
  rewrite !append_cons in H. injection H as -> H.
  do 17 (destruct s as [|c s];
         [discriminate H | rewrite append_cons in H; injection H as -> H]).
  apply (prefix_app marker s).
Qed.

Lemma str_index_prefix (pat s : string) :
  String.prefix pat s = true → str_index pat s = Some O.
Proof. intros H. destruct s; cbn [str_index]; by rewrite H. Qed.

Lemma str_index_app_marker (pre t : string) :
  str_index marker pre = None →
  str_index marker (pre +:+ marker +:+ t) = Some (String.length pre).
Proof.
  induction pre as [|c pre IH]; intros H.
  - change (EmptyString +:+ marker +:+ t) with (marker +:+ t).
    apply str_index_prefix, prefix_app.
  - rewrite str_index_cons in H.
    destruct (String.prefix marker (String c pre)) eqn:E; [discriminate H|].
    destruct (str_index marker pre) eqn:E'; [discriminate H|].
    rewrite append_cons, str_index_cons.
    destruct (String.prefix marker (String c (pre +:+ marker +:+ t))) eqn:E2.
    + apply (marker_no_straddle (String c pre) t) in E2; [congruence|done].
    + rewrite IH by done. reflexivity.
Qed.

Lemma section_end_nl (s : string) :
  own_start s → section_end (nl +:+ s) = S <$> section_end s.
Proof.
  intros Hown. change (nl +:+ s) with (String (ascii_of_nat 10) s).
  rewrite section_end_cons.
  change (nl +:+ "[") with (String (ascii_of_nat 10) "[").
  destruct s as [|a s]; [done|].
  cbn [String.prefix str_drop].
  destruct (ascii_dec (ascii_of_nat 10) (ascii_of_nat 10)); [|done].
  destruct Hown as [H|H]; cbn [String.prefix] in H;
    destruct (ascii_dec "[" a); try done.
  - by destruct s.
  - rewrite H. by destruct s.
Qed.

Lemma str_length_app (s t : string) :
  String.length (s +:+ t) = (String.length s + String.length t)%nat.
Proof.
  induction s as [|a s IH]; [done|].
  rewrite append_cons. cbn [String.length]. by rewrite IH.
Qed.

Lemma own_start_app (l rest : string) :
  own_start l → String.prefix "[" rest = false → own_start (l +:+ rest).
Proof.
  intros [H|H] Hrest.
  - left. destruct l as [|a l]; [done|].
    rewrite append_cons. cbn [String.prefix] in *.
    destruct (ascii_dec "[" a); [|done]. by destruct l.
  - right. apply prefix_inv in H as [r ->].
    rewrite append_assoc. apply prefix_app.
Qed.

(** The search passes over lines none of which opens a foreign section. *)
Lemma section_end_lines (lines : list string) (rest : string) :
  lines ≠ [] →
  Forall (λ l, one_line l ∧ own_start l) lines →
  String.prefix "[" rest = false →
  section_end (String.concat nl lines +:+ rest)
  = (λ n, String.length (String.concat nl lines) + n)%nat
      <$> section_end rest
  ∧ own_start (String.concat nl lines +:+ rest).
Proof.
  intros Hne Hlines Hrest.
  induction Hlines as [|l lines [Hl Hown] Hlines IH]; [done|].
  destruct lines as [|l' lines].
  - cbn [String.concat]. split; [by apply section_end_line|].
    by apply own_start_app.
  - destruct IH as [IH1 IH2]; [done|].
    change (String.concat nl (l :: l' :: lines))
      with (l +:+ nl +:+ String.concat nl (l' :: lines)).
    rewrite !append_assoc. split.
    + rewrite section_end_line by done. rewrite section_end_nl by done.
      rewrite IH1. rewrite !str_length_app.
      destruct (section_end rest) as [e|]; [|done].
      cbn [fmap option_fmap option_map]. f_equal. cbn [String.length nl]. lia.
    + by apply own_start_app.
Qed.

Lemma concat_snoc (sep x : string) (l : list string) :
  l ≠ [] →
  String.concat sep (l ++ [x]) = String.concat sep l +:+ sep +:+ x.
Proof.
  induction l as [|y l IH]; [done|]. intros _.
  destruct l as [|z l]; [done|].
  change (String.concat sep ((y :: z :: l) ++ [x]))
    with (y +:+ sep +:+ String.concat sep ((z :: l) ++ [x])).
  rewrite IH by done.
  change (String.concat sep (y :: z :: l))
    with (y +:+ sep +:+ String.concat sep (z :: l)).
  by rewrite !append_assoc.
Qed.

Lemma free_of_nil (c : ascii) : free_of c EmptyString.
Proof. apply not_elem_of_nil. Qed.

Lemma free_of_app (c : ascii) (s t : string) :
  free_of c (s +:+ t) ↔ free_of c s ∧ free_of c t.
Proof.
  induction s as [|a s IH].
  - change (EmptyString +:+ t) with t. pose proof (free_of_nil c). tauto.
  - rewrite append_cons, !free_of_cons, IH. tauto.
Qed.

Lemma free_of_replace_char (c d : ascii) (r s : string) :
  free_of c r → free_of c s → free_of c (replace_char d r s).
Proof.
  intros Hr. induction s as [|a s IH]; intros Hs; [done|].
  apply free_of_cons in Hs as [Ha Hs]. cbn [replace_char].
  apply free_of_app. split; [|by apply IH].
  destruct (Ascii.eqb a d); [done|].
  apply free_of_cons. split; [done|apply free_of_nil].
Qed.

Lemma free_of_concat (c : ascii) (sep : string) (l : list string) :
  free_of c sep → Forall (free_of c) l → free_of c (String.concat sep l).
Proof.
  intros Hsep. induction 1 as [|x l Hx Hl IH]; [apply free_of_nil|].
  destruct l as [|y l]; [done|].
  change (String.concat sep (x :: y :: l))
    with (x +:+ sep +:+ String.concat sep (y :: l)).
  rewrite !free_of_app. done.
Qed.

Lemma one_line_literal (s : string) :
  forallb (λ a, negb (Ascii.eqb a (ascii_of_nat 10)))
    (list_ascii_of_string s) = true →
  one_line s.
Proof.
  unfold one_line. induction s as [|a s IH]; intros H; [apply free_of_nil|].
  cbn [list_ascii_of_string forallb] in H.
  apply andb_prop in H as [Ha H]. apply free_of_cons. split; [|by apply IH].
  intros <-. by rewrite Ascii.eqb_refl in Ha.
Qed.

Lemma one_line_to_toml_array (items : list string) :
  Forall one_line items → one_line (to_toml_array items).
Proof.
  intros Hitems. unfold to_toml_array, one_line.
  rewrite !free_of_app. split; [by apply one_line_literal|].
  split; [|by apply one_line_literal].
  apply free_of_concat; [by apply one_line_literal|].
  apply Forall_map. eapply Forall_impl; [exact Hitems|].
  intros item Hitem. cbv beta zeta. rewrite !free_of_app.
  split; [by apply one_line_literal|]. split; [|by apply one_line_literal].
  apply free_of_replace_char; [by apply one_line_literal|].
  apply free_of_replace_char; [by apply one_line_literal|done].
Qed.

Lemma config_lines_own (rules : list ResolvedRule) :
  Forall one_line_rule rules →
  Forall (λ l, one_line l ∧ own_start l) (config_lines rules).
Proof.
  intros Hrules. unfold config_lines.
  repeat (apply Forall_cons;
          split; [split; [by apply one_line_literal|by left]|]).
  induction Hrules as [|r rules (Hn & Hc & Hp) _ IH]; [constructor|].
  cbn [map List.concat stanza app].
  constructor; [split|constructor; [split|constructor; [split|constructor]]].
  - unfold one_line. rewrite !free_of_app.
    repeat split; try done; by apply one_line_literal.
  - right. apply prefix_app.
  - unfold one_line. rewrite free_of_app.
    split; [by apply one_line_literal|by apply one_line_to_toml_array].
  - by left.
  - unfold one_line. rewrite free_of_app.
    split; [by apply one_line_literal|by apply one_line_to_toml_array].
  - by left.
  - by split; [apply free_of_nil|left].
  - exact IH.
Qed.

(** The lines of a generated text: at least two, the last of them empty. *)
Lemma config_lines_snoc (rules : list ResolvedRule) :
  ∃ init, init ≠ [] ∧ config_lines rules = init ++ [EmptyString].
Proof.
  unfold config_lines.
  assert (∀ prev : list string,
            ∃ init, prev ++ EmptyString
                      :: List.concat (map stanza rules)
                    = init ++ [EmptyString]
                    ∧ (prev ≠ [] → init ≠ [])) as H.
  { induction rules as [|r rules IH]; intros prev.
    - exists prev. done.
    - cbn [map List.concat stanza app].
      destruct (IH (prev ++ [EmptyString;
                             "[fix.tools." +:+ rule_name r +:+ "]";
                             "command = " +:+ to_toml_array (rule_command r);
                             "patterns = "
                               +:+ to_toml_array (rule_patterns r)]))
        as (init & Hinit & Hne).
      exists init. split.
      + rewrite <- Hinit. by rewrite <- app_assoc.
      + intros _. apply Hne. by destruct prev. }
  destruct (H ["# Generated by jmt"; "# Do not edit manually"])
    as (init & Hinit & Hne).
  exists init. split; [by apply Hne|exact Hinit].
Qed.

Lemma remove_old_section_lines (pre post : string)
    (rules : list ResolvedRule) :
  str_index marker pre = None →
  Forall one_line_rule rules →
  remove_old_section (pre +:+ String.concat nl (config_lines rules)) = pre
  ∧ (String.prefix "fix.tools." post = false →
     remove_old_section
       (pre +:+ String.concat nl (config_lines rules) +:+ "[" +:+ post)
     = pre +:+ nl +:+ "[" +:+ post).
Proof.
  intros Hpre Hrules.
  pose proof (config_lines_own rules Hrules) as Hown.
  assert (∃ t, String.concat nl (config_lines rules) = marker +:+ t)
    as [t Ht] by (by eexists).
  split.
  - destruct (section_end_lines (config_lines rules) EmptyString)
      as [Hend _]; [done|done|done|].
    rewrite append_nil_r in Hend. unfold remove_old_section.
    rewrite Ht, (str_index_app_marker pre t Hpre), <- Ht.
    by rewrite str_drop_app, Hend, str_take_app.
  - intros Hpost.
    destruct (config_lines_snoc rules) as (init & Hne & Hinit).
    rewrite Hinit in Hown. apply Forall_app in Hown as [Hown _].
    destruct (section_end_lines init (nl +:+ "[" +:+ post))
      as [Hend _]; [done|done|done|].
    assert (section_end (nl +:+ "[" +:+ post) = Some O) as Hrest.
    { change (nl +:+ "[" +:+ post)
        with (String (ascii_of_nat 10) (String "[" post)).
      rewrite section_end_cons.
      change (str_drop 2 (String (ascii_of_nat 10) (String "[" post)))
        with post.
      replace (String.prefix (nl +:+ "[")
                 (String (ascii_of_nat 10) (String "[" post)))
        with true by (symmetry; apply (prefix_app (nl +:+ "[") post)).
      by rewrite Hpost. }
    rewrite Hrest in Hend. cbn [fmap option_fmap option_map] in Hend.
    assert (String.concat nl (config_lines rules) +:+ "[" +:+ post
            = String.concat nl init +:+ nl +:+ "[" +:+ post) as Htext.
    { rewrite Hinit, concat_snoc by done. by rewrite !append_assoc. }
    assert (str_index marker
              (pre +:+ String.concat nl (config_lines rules)
                   +:+ "[" +:+ post)
            = Some (String.length pre)) as Hidx.
    { rewrite Ht, append_assoc. by apply str_index_app_marker. }
    unfold remove_old_section. rewrite Hidx, Htext.
    rewrite str_drop_app, Hend, str_take_app.
    rewrite str_drop_add, str_drop_app, Nat.add_0_r.
    by rewrite str_drop_app.
Qed.

(** X14. A generated configuration appended to a text without marker is
    removed again as a whole, leaving that text as it was, when no rule name,
    command word or pattern holds a line feed. *)
Theorem regenerated_section_replaced (env : gmap string string)
    (treefmt_config : TreefmtConfig) (only_tools : option (gset string))
    (pre : string) :
  str_index marker pre = None →
  Forall one_line_rule (resolved_rules env treefmt_config only_tools) →
  remove_old_section
    (pre +:+ generate_jj_config env treefmt_config only_tools) = pre.
Proof.
  intros Hpre Hrules.
  by apply (remove_old_section_lines pre EmptyString).
Qed.

Lemma regenerated_section_replaced_witness :
  remove_old_section
    (("[user]" +:+ nl +:+ "name = me" +:+ nl +:+ nl)
       +:+ generate_jj_config ∅ sample_config None)
  = "[user]" +:+ nl +:+ "name = me" +:+ nl +:+ nl.
Proof.
  apply (regenerated_section_replaced ∅ sample_config None
           ("[user]" +:+ nl +:+ "name = me" +:+ nl +:+ nl)).
  - reflexivity.
  - set (rules := resolved_rules ∅ sample_config None).
    vm_compute in rules. subst rules.
    repeat first [ apply Forall_nil_2 | apply Forall_cons_2 | split
                 | apply one_line_literal; reflexivity ].
Defined.

(** X15. A section header written right after a generated configuration
    survives the removal, with the line feed that ended the configuration in
    front of it, unless it is a header of [fix.tools.]. *)
Theorem later_section_kept (env : gmap string string)
    (treefmt_config : TreefmtConfig) (only_tools : option (gset string))
    (pre post : string) :
  str_index marker pre = None →
  Forall one_line_rule (resolved_rules env treefmt_config only_tools) →
  String.prefix "fix.tools." post = false →
  remove_old_section
    (pre +:+ generate_jj_config env treefmt_config only_tools
         +:+ "[" +:+ post)
  = pre +:+ nl +:+ "[" +:+ post.
Proof.
  intros Hpre Hrules Hpost.
  by apply (remove_old_section_lines pre post).
Qed.

Lemma later_section_kept_witness :
  remove_old_section
    (("[user]" +:+ nl) +:+ generate_jj_config ∅ sample_config None
       +:+ "[" +:+ "ui]" +:+ nl +:+ "pager = less")
  = ("[user]" +:+ nl) +:+ nl +:+ "[" +:+ "ui]" +:+ nl +:+ "pager = less".
Proof.
  apply (later_section_kept ∅ sample_config None
           ("[user]" +:+ nl) ("ui]" +:+ nl +:+ "pager = less")).
  - reflexivity.
  - set (rules := resolved_rules ∅ sample_config None).
    vm_compute in rules. subst rules.
    repeat first [ apply Forall_nil_2 | apply Forall_cons_2 | split
                 | apply one_line_literal; reflexivity ].
  - reflexivity.
Defined.

(** ** From the command line to jj *)

Lemma list_index_app (x : string) (l1 l2 : list string) :
  x ∉ l1 → list_index x (l1 ++ x :: l2) = Some (List.length l1).
Proof.
  intros Hx. unfold list_index.
  assert (list_find (λ y, y = x) (l1 ++ x :: l2) = Some (List.length l1, x))
    as ->; [|done].
  apply list_find_Some. split; [|split; [done|]].
  - by rewrite list_lookup_middle.
  - intros j y Hj Hlt ->. apply Hx.
    rewrite lookup_app_l in Hj by done.
    by apply list_elem_of_lookup_2 in Hj.
Qed.

(** X16. Everything after the first [--] of the command line reaches jj
    untouched, a further [--] included: the command run is [jj fix
    --include-unchanged-files] followed by those words, and the words before
    the first [--] are the program's own. *)
Theorem jj_args_forwarded (jmt_args rest : list string) :
  "--" ∉ jmt_args →
  (parse_args (jmt_args ++ "--" :: rest)).1 = jmt_args
  ∧ run_jj_fix_cmd (jj_extra_args (parse_args (jmt_args ++ "--" :: rest)).2)
    = ["jj"; "fix"; "--include-unchanged-files"] ++ rest.
Proof.
  intros Hno. unfold parse_args. rewrite list_index_app by done.
  cbn [fst snd]. split.
  - by rewrite take_app_length.
  - rewrite (cons_middle "--" jmt_args rest), app_assoc.
    rewrite drop_app_length' by (rewrite length_app; cbn; lia).
    unfold run_jj_fix_cmd. by destruct rest.
Qed.

Lemma jj_args_forwarded_witness :
  (parse_args (["--sync"] ++ "--" :: ["-s"; "@"; "--"; "x"])).1 = ["--sync"]
  ∧ run_jj_fix_cmd
      (jj_extra_args
         (parse_args (["--sync"] ++ "--" :: ["-s"; "@"; "--"; "x"])).2)
    = ["jj"; "fix"; "--include-unchanged-files"] ++ ["-s"; "@"; "--"; "x"].
Proof.
  apply (jj_args_forwarded ["--sync"] ["-s"; "@"; "--"; "x"]).
  apply not_elem_of_cons. split; [discriminate|apply not_elem_of_nil].
Defined.

(** ** The first [--only] *)

Lemma only_step_fixed (jmt_args : list string) (idx : nat) (value : string)
    (l : list string) :
  list_index "--only" jmt_args = Some idx →
  jmt_args !! S idx = Some value →
  Forall (λ arg, String.prefix "--only=" arg = false) l →
  foldl (only_step jmt_args)
    (Some (list_to_set (split_on ","%char value))) l
  = Some (list_to_set (split_on ","%char value)).
Proof.
  intros Hidx Hval. induction 1 as [|arg l Harg _ IH]; [done|].
  cbn [foldl]. unfold only_step at 2. rewrite Harg.
  destruct (decide (arg = "--only")) as [->|]; [|exact IH].
  by rewrite Hidx, Hval.
Qed.

(** X17. With the value given as a separate word, the first [--only] is the
    one that counts: its value sets the allow-list, and a later [--only]
    with another value changes nothing, as long as no argument has the form
    [--only=...]. *)
Theorem first_only_wins (before after : list string) (value : string) :
  Forall (λ arg, String.prefix "--only=" arg = false ∧ arg ≠ "--only")
    before →
  Forall (λ arg, String.prefix "--only=" arg = false) (value :: after) →
  parse_only (before ++ "--only" :: value :: after)
  = Some (list_to_set (split_on ","%char value)).
Proof.
  intros Hbefore Hafter. unfold parse_only.
  set (jmt_args := before ++ "--only" :: value :: after).
  assert (list_index "--only" jmt_args = Some (List.length before)) as Hidx.
  { apply list_index_app. intros Hin.
    rewrite Forall_forall in Hbefore. by destruct (Hbefore _ Hin). }
  assert (jmt_args !! S (List.length before) = Some value) as Hval.
  { unfold jmt_args. rewrite (cons_middle "--only"), app_assoc.
    rewrite lookup_app_r by (rewrite length_app; cbn; lia).
    rewrite length_app. cbn [List.length].
    by replace (S (List.length before) - (List.length before + 1))%nat
      with 0%nat by lia. }
  assert (foldl (only_step jmt_args) None before = None) as Hpre.
  { clearbody jmt_args. clear Hidx Hval.
    induction Hbefore as [|arg l [Hp Hne] _ IH]; [done|].
    cbn [foldl]. by rewrite only_step_untouched. }
  assert (only_step jmt_args None "--only"
          = Some (list_to_set (split_on ","%char value))) as Hstep.
  { unfold only_step. change (String.prefix "--only=" "--only") with false.
    cbv iota. rewrite decide_True by done. by rewrite Hidx, Hval. }
  unfold jmt_args at 2. rewrite foldl_app, Hpre.
  change (foldl (only_step jmt_args) None ("--only" :: value :: after))
    with (foldl (only_step jmt_args) (only_step jmt_args None "--only")
            (value :: after)).
  rewrite Hstep. by apply only_step_fixed with (List.length before).
Qed.

Lemma first_only_wins_witness :
  parse_only (["--sync"] ++ "--only" :: "nixfmt,ruff" :: ["--only"; "shfmt"])
  = Some (list_to_set (split_on ","%char "nixfmt,ruff")).
Proof.
  apply (first_only_wins ["--sync"] ["--only"; "shfmt"] "nixfmt,ruff").
  - repeat constructor. discriminate.
  - repeat constructor.
Defined.

(** * The command synthesizer: base names, and the script as text *)

(** ** The stdin path, by the base name of the command *)

Lemma inplace_short_flag_typstyle (base : string) :
  base ∈ INPLACE_SHORT_FLAG ↔ base = "typstyle".
Proof. unfold INPLACE_SHORT_FLAG. by rewrite elem_of_singleton. Qed.

Lemma stdin_exclude_spec (base opt : string) :
  opt ∉ stdin_exclude base
  ↔ (opt ∉ ["-w"; "--write"; "-e"; "--edit"; "--fix"; "--inplace"])
    ∧ ¬ (opt = "-i" ∧ base = "typstyle").
Proof.
  unfold stdin_exclude.
  destruct (decide (base ∈ INPLACE_SHORT_FLAG)) as [Hin|Hin];
    rewrite inplace_short_flag_typstyle in Hin.
  - split.
    + intros [H1 H2]%not_elem_of_app. split; [done|].
      intros [-> _]. apply H2, list_elem_of_here.
    + intros [H1 H2]. apply not_elem_of_app. split; [done|].
      intros Hi. apply H2. split; [|done].
      apply elem_of_cons in Hi as [->|Hi]; [done|].
      by apply elem_of_nil in Hi.
  - split; [|tauto]. intros H. split; [done|]. by intros [_ ?].
Qed.

(** C4, as the code has it.  For a tool on the stdin path the result is the
    command, then the options without [-w], [--write], [-e], [--edit],
    [--fix], [--inplace] (and without [-i] when the base name of the command
    is [typstyle]), the others all kept in their order, then the entry of
    the static table for the base name of the command, nothing when it has
    none.  The tool's declared name plays no part.  The [fmt] case adds
    nothing of its own: its two commands are in the table with the same
    [-]. *)
Theorem get_stdin_command_shape (env : gmap string string)
    (name dir base command : string) (options : list string)
    (wrapper_type : option string) :
  classify name = DirectStdin →
  free_of "/"%char base → base ≠ EmptyString → base ≠ "." →
  command = base ∨ command = dir +:+ "/" +:+ base →
  get_stdin_command env name command options wrapper_type
  = command
      :: filter (λ opt,
                   (opt ∉ ["-w"; "--write"; "-e"; "--edit"; "--fix";
                           "--inplace"])
                   ∧ ¬ (opt = "-i" ∧ base = "typstyle")) options
      ++ default [] (STDIN_ARGS !! base)
  ∧ (base ∈ ["tofu"; "terraform"] → STDIN_ARGS !! base = Some ["-"]).
Proof.
  intros [Hw Hp]%classify_direct Hfree Hne Hdot Hcmd.
  destruct (path_name_base dir base Hfree Hne Hdot) as [H1 H2].
  assert (path_name command = base) as Hbase by (by destruct Hcmd as [->| ->]).
  split; [|apply fmt_tools_in_table].
  rewrite get_stdin_command_direct by done. rewrite Hbase.
  unfold stdin_filtered_opts, without, stdin_args. do 2 f_equal.
  apply list_filter_iff. intros opt. apply stdin_exclude_spec.
Qed.

Lemma get_stdin_command_shape_witness :
  get_stdin_command ∅ "prettier" ("/nix/store/x/bin" +:+ "/" +:+ "prettier")
    ["--write"; "-i"; "--edit"; "--tab-width=2"] None
  = ["/nix/store/x/bin/prettier"; "-i"; "--tab-width=2";
     "--stdin-filepath=$path"].
Proof.
  apply (get_stdin_command_shape ∅ "prettier" "/nix/store/x/bin" "prettier"
           ("/nix/store/x/bin" +:+ "/" +:+ "prettier")
           ["--write"; "-i"; "--edit"; "--tab-width=2"] None).
  - reflexivity.
  - unfold free_of. cbn. rewrite !not_elem_of_cons. repeat split; try done.
    apply not_elem_of_nil.
  - discriminate.
  - discriminate.
  - by right.
Defined.

(** C4 as stated fails: the table is not read at the tool's name.  The
    tool [ruff-format] is not in it, but its command [ruff] is, and the
    stdin argument of [ruff] is added. *)
Lemma stdin_args_not_by_tool_name :
  ¬ (∀ name command options,
       classify name = DirectStdin →
       get_stdin_command ∅ name command options None
       = [command] ++ stdin_filtered_opts name options
           ++ stdin_args_of_tool name (stdin_filtered_opts name options)).
Proof.
  intros H. specialize (H "ruff-format" "ruff" ["format"] eq_refl).
  vm_compute in H. discriminate H.
Qed.

(** C5, as the code has it.  On the stdin path [-i] is passed on exactly
    when the options have it and the base name of the command is not
    [typstyle], the one member of [INPLACE_SHORT_FLAG]: the set is consulted
    at the base name of the command, whatever the tool is called and with
    or without a directory in front. *)
Theorem short_inplace_flag_by_lookup (env : gmap string string)
    (name dir base command : string) (options : list string)
    (wrapper_type : option string) :
  classify name = DirectStdin →
  free_of "/"%char base → base ≠ EmptyString → base ≠ "." →
  command = base ∨ command = dir +:+ "/" +:+ base →
  "-i" ∈ tail (get_stdin_command env name command options wrapper_type)
  ↔ "-i" ∈ options ∧ base ≠ "typstyle".
Proof.
  intros [Hw Hp]%classify_direct Hfree Hne Hdot Hcmd.
  destruct (path_name_base dir base Hfree Hne Hdot) as [H1 H2].
  assert (path_name command = base) as Hbase by (by destruct Hcmd as [->| ->]).
  rewrite get_stdin_command_direct by done. rewrite Hbase. cbn [tail].
  rewrite elem_of_app. unfold stdin_filtered_opts.
  rewrite without_spec, stdin_exclude_spec. split.
  - intros [(Hin & _ & Hnot)|Hargs]; [split; [done|]; intros ?; by apply Hnot|].
    exfalso. unfold stdin_args in Hargs.
    destruct (STDIN_ARGS !! base) as [args|] eqn:E;
      [|by apply elem_of_nil in Hargs].
    apply stdin_args_table in E. cbn [default] in Hargs.
    revert Hargs. change ((λ kv : string * list string, "-i" ∉ kv.2)
                            (base, args)).
    revert E. apply Forall_forall.
    repeat (constructor; [cbn; rewrite ?elem_of_cons, ?elem_of_nil;
                          intros H; repeat destruct H as [H|H]; done|]).
    constructor.
  - intros [Hin Hty]. left. split; [done|]. split; [|by intros [_ ?]].
    rewrite !not_elem_of_cons. repeat split; try done. apply not_elem_of_nil.
Qed.

Lemma short_inplace_flag_by_lookup_witness :
  "-i" ∈ tail (get_stdin_command ∅ "typst"
                 ("/nix/store/x/bin" +:+ "/" +:+ "typstyle")
                 ["-i"; "--column=80"] None)
  ↔ "-i" ∈ ["-i"; "--column=80"] ∧ "typstyle" ≠ "typstyle".
Proof.
  apply (short_inplace_flag_by_lookup ∅ "typst" "/nix/store/x/bin"
           "typstyle" ("/nix/store/x/bin" +:+ "/" +:+ "typstyle")
           ["-i"; "--column=80"] None).
  - reflexivity.
  - unfold free_of. cbn. rewrite !not_elem_of_cons. repeat split; try done.
    apply not_elem_of_nil.
  - discriminate.
  - discriminate.
  - by right.
Defined.

(** C5 as stated fails: membership is not looked up at the tool's name.  A
    tool called [typst] whose command is [typstyle] loses its [-i], though
    no tool of that name is in the set. *)
Lemma short_inplace_flag_not_by_tool_name :
  ¬ (∀ name command options,
       classify name = DirectStdin →
       "-i" ∈ tail (get_stdin_command ∅ name command options None)
       ↔ "-i" ∈ options ∧ name ∉ INPLACE_SHORT_FLAG).
Proof.
  intros H.
  destruct (H "typst" "/nix/store/x/bin/typstyle" ["-i"] eq_refl) as [_ H2].
  assert ("-i" ∈ tail (get_stdin_command ∅ "typst" "/nix/store/x/bin/typstyle"
                         ["-i"] None)) as Hin.
  { apply H2. split; [apply list_elem_of_here|].
    unfold INPLACE_SHORT_FLAG. rewrite elem_of_singleton. discriminate. }
  vm_compute in Hin. by apply elem_of_nil in Hin.
Qed.

(** ** Reading the text of the wrapper script *)

Lemma lex_unquoted (w : string) (cur : Bash.word) (acc : list Bash.token)
    (rest : string) :
  forallb Bash.unq_char (list_ascii_of_string w) = true →
  Bash.lex (Bash.Unq (Some cur)) acc (w +:+ rest)
  = Bash.lex (Bash.Unq (Some (rev (Bash.unquoted w) ++ cur))) acc rest.
Proof.
  revert cur. induction w as [|c w IH]; intros cur Hw; [done|].
  cbn [list_ascii_of_string forallb] in Hw.
  apply andb_prop in Hw as [Hc Hw].
  rewrite append_cons. cbn [Bash.lex]. rewrite Hc.
  cbn [default]. rewrite (IH _ Hw).
  unfold Bash.unquoted. cbn [list_ascii_of_string fmap list_fmap rev].
  by rewrite <- app_assoc.
Qed.

Lemma lex_quoted (o : string) (cur : Bash.word) (acc : list Bash.token)
    (rest : string) :
  Bash.dq_safe o = true →
  Bash.lex (Bash.Dq cur) acc (o +:+ rest)
  = Bash.lex (Bash.Dq (rev (Bash.quoted o) ++ cur)) acc rest.
Proof.
  unfold Bash.dq_safe. revert cur.
  induction o as [|c o IH]; intros cur Ho; [done|].
  cbn [list_ascii_of_string forallb] in Ho.
  apply andb_prop in Ho as [Hc Ho].
  rewrite append_cons. cbn [Bash.lex]. rewrite Hc.
  rewrite (IH _ Ho).
  unfold Bash.quoted. cbn [list_ascii_of_string fmap list_fmap rev].
  by rewrite <- app_assoc.
Qed.

Lemma lex_substitution (w : string) (cur : Bash.word)
    (acc : list Bash.token) (raw rest : string) :
  forallb Bash.sub_char (list_ascii_of_string w) = true →
  Bash.lex (Bash.Sub cur raw) acc (w +:+ rest)
  = Bash.lex (Bash.Sub cur (raw +:+ w)) acc rest.
Proof.
  revert raw. induction w as [|c w IH]; intros raw Hw.
  - change (EmptyString +:+ rest) with rest. by rewrite append_nil_r.
  - cbn [list_ascii_of_string forallb] in Hw.
    apply andb_prop in Hw as [Hc Hw].
    rewrite append_cons. cbn [Bash.lex]. rewrite Hc.
    rewrite (IH _ Hw). by rewrite append_assoc.
Qed.

(** A word between double quotes. *)
Lemma lex_option (o : string) (acc : list Bash.token) (rest : string) :
  Bash.dq_safe o = true →
  Bash.lex (Bash.Unq None) acc (dq +:+ o +:+ dq +:+ " " +:+ rest)
  = Bash.lex (Bash.Unq None) (Bash.TWord (Bash.quoted o) :: acc) rest.
Proof.
  intros Ho.
  change (Bash.lex (Bash.Dq []) acc (o +:+ dq +:+ " " +:+ rest)
          = Bash.lex (Bash.Unq None) (Bash.TWord (Bash.quoted o) :: acc) rest).
  rewrite (lex_quoted _ _ _ _ Ho).
  change (Bash.lex (Bash.Unq None)
            (Bash.TWord (rev (rev (Bash.quoted o) ++ [])) :: acc) rest
          = Bash.lex (Bash.Unq None) (Bash.TWord (Bash.quoted o) :: acc) rest).
  by rewrite app_nil_r, rev_involutive.
Qed.

Lemma lex_options (opts : list string) (acc : list Bash.token)
    (rest : string) :
  Forall (λ o, Bash.dq_safe o = true) opts →
  Bash.lex (Bash.Unq None) acc (opts_str opts +:+ " " +:+ rest)
  = Bash.lex (Bash.Unq None)
      (rev (Bash.TWord <$> (Bash.quoted <$> opts)) ++ acc) rest.
Proof.
  intros Hopts. revert acc.
  induction Hopts as [|o opts Ho Hopts IH]; intros acc; [done|].
  unfold opts_str in *. cbn [map String.concat fmap list_fmap rev].
  destruct opts as [|o' opts].
  - cbn [map]. rewrite !append_assoc. rewrite (lex_option _ _ _ Ho). done.
  - cbn [map] in *. rewrite !append_assoc. rewrite (lex_option _ _ _ Ho).
    rewrite IH. cbn [map fmap list_fmap rev]. by rewrite <- !app_assoc.
Qed.

(** Plain characters are read as themselves outside quotes and inside
    [$( )], and are neither a space nor an equals sign. *)
Lemma plain_char_cases (a : ascii) :
  Bash.plain_char a = true →
  Bash.unq_char a = true ∧ Bash.sub_char a = true
  ∧ a ≠ " "%char ∧ a ≠ "="%char.
Proof.
  intros H. unfold Bash.sub_char, Bash.unq_char. rewrite H.
  repeat split; try done; intros ->; discriminate H.
Qed.

Lemma plain_chars (s : string) :
  forallb Bash.plain_char (list_ascii_of_string s) = true →
  forallb Bash.unq_char (list_ascii_of_string s) = true
  ∧ forallb Bash.sub_char (list_ascii_of_string s) = true
  ∧ free_of " " s ∧ free_of "=" s.
Proof.
  induction s as [|a s IH]; intros H.
  - repeat split; try done; apply not_elem_of_nil.
  - cbn [list_ascii_of_string forallb] in *.
    apply andb_prop in H as [Ha H].
    destruct (plain_char_cases a Ha) as (H1 & H2 & H3 & H4).
    destruct (IH H) as (I1 & I2 & I3 & I4).
    rewrite H1, H2, I1, I2. unfold free_of in *.
    cbn [list_ascii_of_string]. rewrite !not_elem_of_cons.
    repeat split; done.
Qed.

Lemma ext_cases (name : string) :
  default EmptyString (ext_map !! name) ∈ [EmptyString; ".nix"; ".sh"; ".py"].
Proof.
  destruct (ext_map !! name) as [ext|] eqn:E; [|apply list_elem_of_here].
  apply elem_of_list_to_map_2 in E. cbn [default].
  rewrite !elem_of_cons in E. rewrite !elem_of_cons.
  destruct E as [E|[E|[E|[E|[E|E]]]]];
    try (injection E as _ ->; tauto). by apply elem_of_nil in E.
Qed.

Lemma lex_assign_head (acc : list Bash.token) (rest : string) :
  Bash.lex (Bash.Unq None) acc ("t=$(" +:+ rest)
  = Bash.lex (Bash.Sub [Bash.WC false "="; Bash.WC false "t"] EmptyString)
      acc rest.
Proof. reflexivity. Qed.

Lemma lex_read_stdin (cur : Bash.word) (raw : string)
    (acc : list Bash.token) (rest : string) :
  Bash.lex (Bash.Sub cur raw) acc
    (")" +:+ "; " +:+ "cat >" +:+ quoted_t +:+ "; " +:+ rest)
  = Bash.lex (Bash.Unq None)
      (Bash.TSemi :: Bash.TWord [Bash.WVarT] :: Bash.TGreat None
         :: Bash.TWord (Bash.unquoted "cat") :: Bash.TSemi
         :: Bash.TWord (rev (Bash.WSubst raw :: cur)) :: acc) rest.
Proof. reflexivity. Qed.

Lemma lex_command (command : string) (acc : list Bash.token)
    (rest : string) :
  Bash.plain_word command = true →
  Bash.lex (Bash.Unq None) acc (command +:+ " " +:+ rest)
  = Bash.lex (Bash.Unq None)
      (Bash.TWord (Bash.unquoted command) :: acc) rest.
Proof.
  unfold Bash.plain_word. intros [Hne Hc]%andb_prop.
  destruct command as [|c command]; [done|].
  cbn [list_ascii_of_string forallb] in Hc. apply andb_prop in Hc as [Hc Hcs].
  destruct (plain_char_cases c Hc) as (Hu & _).
  destruct (plain_chars command Hcs) as (Hus & _).
  rewrite append_cons. cbn [Bash.lex]. rewrite Hu. cbn [default].
  rewrite (lex_unquoted _ _ _ _ Hus).
  change (Bash.lex (Bash.Unq None)
            (Bash.TWord (rev (rev (Bash.unquoted command)
                                ++ [Bash.WC false c])) :: acc) rest
          = Bash.lex (Bash.Unq None)
              (Bash.TWord (Bash.unquoted (String c command)) :: acc) rest).
  by rewrite rev_app_distr, rev_involutive.
Qed.

Lemma lex_tail (r : Sh.redirection) (acc : list Bash.token) :
  Bash.lex (Bash.Unq None) acc
    (quoted_t +:+ Sh.render_redirection r +:+ "; " +:+ "cat " +:+ quoted_t
       +:+ "; " +:+ "rm " +:+ quoted_t)
  = Some (rev acc ++ Bash.TWord [Bash.WVarT] :: redirection_tokens r
            ++ [Bash.TOrOr; Bash.TWord (Bash.unquoted "true"); Bash.TSemi;
                Bash.TWord (Bash.unquoted "cat"); Bash.TWord [Bash.WVarT];
                Bash.TSemi;
                Bash.TWord (Bash.unquoted "rm"); Bash.TWord [Bash.WVarT]]).
Proof.
  destruct r.
  - change (Some (rev ([Bash.TWord [Bash.WVarT]; Bash.TWord (Bash.unquoted "rm");
                        Bash.TSemi; Bash.TWord [Bash.WVarT];
                        Bash.TWord (Bash.unquoted "cat"); Bash.TSemi;
                        Bash.TWord (Bash.unquoted "true"); Bash.TOrOr;
                        Bash.TWord (Bash.unquoted "2"); Bash.TGreatAnd None;
                        Bash.TWord [Bash.WVarT]] ++ acc)) = 
            Some (rev acc ++ rev [Bash.TWord [Bash.WVarT]; Bash.TWord (Bash.unquoted "rm");
                        Bash.TSemi; Bash.TWord [Bash.WVarT];
                        Bash.TWord (Bash.unquoted "cat"); Bash.TSemi;
                        Bash.TWord (Bash.unquoted "true"); Bash.TOrOr;
                        Bash.TWord (Bash.unquoted "2"); Bash.TGreatAnd None;
                        Bash.TWord [Bash.WVarT]])).
    by rewrite rev_app_distr.
  - change (Some (rev ([Bash.TWord [Bash.WVarT]; Bash.TWord (Bash.unquoted "rm");
                        Bash.TSemi; Bash.TWord [Bash.WVarT];
                        Bash.TWord (Bash.unquoted "cat"); Bash.TSemi;
                        Bash.TWord (Bash.unquoted "true"); Bash.TOrOr;
                        Bash.TWord (Bash.unquoted "1");
                        Bash.TGreatAnd (Some 2%nat);
                        Bash.TWord (Bash.unquoted "/dev/null");
                        Bash.TGreat None;
                        Bash.TWord [Bash.WVarT]] ++ acc)) = 
            Some (rev acc ++ rev [Bash.TWord [Bash.WVarT]; Bash.TWord (Bash.unquoted "rm");
                        Bash.TSemi; Bash.TWord [Bash.WVarT];
                        Bash.TWord (Bash.unquoted "cat"); Bash.TSemi;
                        Bash.TWord (Bash.unquoted "true"); Bash.TOrOr;
                        Bash.TWord (Bash.unquoted "1");
                        Bash.TGreatAnd (Some 2%nat);
                        Bash.TWord (Bash.unquoted "/dev/null");
                        Bash.TGreat None;
                        Bash.TWord [Bash.WVarT]])).
    by rewrite rev_app_distr.
Qed.

Lemma lex_script (env : gmap string string) (name command : string)
    (options : list string) (mode : string) :
  Bash.plain_word (mktemp_cmd env) = true →
  Bash.plain_word command = true →
  Forall (λ o, Bash.dq_safe o = true) options →
  Bash.lex (Bash.Unq None) []
    (Sh.render (inline_script env name command options mode))
  = Some (script_tokens (mktemp_cmd env)
            (default EmptyString (ext_map !! name)) command
            (inline_filtered_opts options)
            (if decide (mode = "passthrough") then Sh.OutToErr
             else Sh.AllToNull)).
Proof.
  intros Hmk Hcmd Hopts.
  unfold Sh.render, inline_script.
  cbn [map String.concat Sh.render_command].
  rewrite !append_assoc.
  rewrite lex_assign_head.
  apply andb_prop in Hmk as [_ Hmk].
  destruct (plain_chars _ Hmk) as (_ & Hmk' & _).
  rewrite (lex_substitution _ _ _ _ _ Hmk').
  rewrite (lex_substitution " --suffix=") by reflexivity.
  rewrite (lex_substitution (default EmptyString (ext_map !! name))).
  2:{ pose proof (ext_cases name) as Hext. rewrite !elem_of_cons in Hext.
      destruct Hext as [->|[->|[->|[->|Hext]]]]; try reflexivity.
      by apply elem_of_nil in Hext. }
  rewrite lex_read_stdin, (lex_command _ _ _ Hcmd).
  rewrite lex_options.
  2:{ unfold inline_filtered_opts, without. rewrite Forall_forall in Hopts.
      apply Forall_forall. intros o [_ Ho]%list_elem_of_filter. by apply Hopts. }
  rewrite lex_tail. f_equal. unfold script_tokens.
  rewrite rev_app_distr, rev_involutive. cbn [rev app].
  rewrite <- ?app_assoc, ?append_assoc. reflexivity.
Qed.

Lemma split_semi_nonempty (ts : list Bash.token) : Bash.split_semi ts ≠ [].
Proof.
  induction ts as [|t ts IH]; [done|].
  cbn [Bash.split_semi]. destruct t; try done;
    by destruct (Bash.split_semi ts).
Qed.

Lemma split_semi_words (ws : list Bash.word) (ts : list Bash.token) :
  Bash.split_semi ((Bash.TWord <$> ws) ++ ts)
  = match Bash.split_semi ts with
    | seg :: segs => ((Bash.TWord <$> ws) ++ seg) :: segs
    | [] => []
    end.
Proof.
  induction ws as [|w ws IH].
  - cbn [fmap list_fmap app]. pose proof (split_semi_nonempty ts).
    by destruct (Bash.split_semi ts).
  - cbn [fmap list_fmap app Bash.split_semi]. cbn [fmap list_fmap] in IH.
    rewrite IH. pose proof (split_semi_nonempty ts).
    by destruct (Bash.split_semi ts).
Qed.

Lemma parse_simple_words (ws : list Bash.word) (acc : Bash.simple)
    (ts : list Bash.token) :
  Bash.parse_simple acc ((Bash.TWord <$> ws) ++ ts)
  = Bash.parse_simple {| Bash.argv := Bash.argv acc ++ ws;
                         Bash.redirs := Bash.redirs acc;
                         Bash.or_true := Bash.or_true acc |} ts.
Proof.
  revert acc. induction ws as [|w ws IH]; intros acc.
  - cbn [fmap list_fmap app]. rewrite app_nil_r. by destruct acc.
  - cbn [fmap list_fmap app Bash.parse_simple]. cbn [fmap list_fmap] in IH.
    rewrite IH. cbn [Bash.argv Bash.redirs Bash.or_true].
    by rewrite <- app_assoc.
Qed.

Lemma parse_script (mk ext command : string) (opts : list string)
    (r : Sh.redirection) :
  Bash.parse (script_tokens mk ext command opts r)
  = Some (script_commands mk ext command opts r).
Proof.
  unfold Bash.parse, script_tokens. cbn [app Bash.split_semi].
  rewrite split_semi_words.
  destruct r;
    cbn [redirection_tokens app Bash.split_semi mapM Bash.parse_simple];
    rewrite parse_simple_words; reflexivity.
Qed.

(** ** Running the commands of the wrapper script *)

Lemma mktemp_call_script (mk ext : string) :
  Bash.plain_word mk = true →
  ext ∈ [EmptyString; ".nix"; ".sh"; ".py"] →
  Bash.mktemp_call (mk +:+ " --suffix=" +:+ ext) = true.
Proof.
  intros Hmk Hext. unfold Bash.mktemp_call.
  change (mk +:+ " --suffix=" +:+ ext)
    with (mk +:+ String " " ("--suffix=" +:+ ext)).
  rewrite split_on_app.
  pose proof Hmk as [_ Hc]%andb_prop.
  destruct (plain_chars _ Hc) as (_ & _ & Hsp & _).
  rewrite (split_on_free _ _ Hsp).
  assert (split_on " " ("--suffix=" +:+ ext) = ["--suffix=" +:+ ext]) as ->.
  { rewrite !elem_of_cons in Hext.
    destruct Hext as [->|[->|[->|[->|Hext]]]]; try reflexivity.
    by apply elem_of_nil in Hext. }
  cbn [app]. by rewrite Hmk, prefix_app.
Qed.

Lemma expand_unquoted (t s : string) :
  Bash.expand t (Bash.unquoted s) = Some s.
Proof.
  induction s as [|a s IH]; [done|].
  unfold Bash.unquoted in *. cbn [list_ascii_of_string fmap list_fmap Bash.expand].
  cbn [fmap list_fmap] in IH. by rewrite IH.
Qed.

Lemma expand_quoted (t s : string) :
  Bash.expand t (Bash.quoted s) = Some s.
Proof.
  induction s as [|a s IH]; [done|].
  unfold Bash.quoted in *. cbn [list_ascii_of_string fmap list_fmap Bash.expand].
  cbn [fmap list_fmap] in IH. by rewrite IH.
Qed.

Lemma expand_var (t : string) : Bash.expand t [Bash.WVarT] = Some t.
Proof. cbn. by rewrite append_nil_r. Qed.

Section exec_script.
Variable tmp : string.
Variable tools : string → Sh.tool.
Hypothesis Htmp : Bash.file_path tmp = true.

Lemma exec_read_stdin (st : Bash.state) :
  Bash.var_t st = tmp →
  Bash.exec tmp tools st
    {| Bash.argv := [Bash.unquoted "cat"];
       Bash.redirs := [(1%nat, Bash.ToFile [Bash.WVarT])];
       Bash.or_true := false |}
  = Some (false, {| Bash.files := <[tmp := Bash.stdin st]> (Bash.files st);
                    Bash.var_t := tmp;
                    Bash.written := Bash.written st;
                    Bash.stdin := EmptyString |}).
Proof.
  intros Ht. unfold Bash.exec.
  cbn [Bash.assignment Bash.argv Bash.redirs Bash.or_true].
  cbn [mapM]. rewrite expand_unquoted. unfold Bash.expand_target.
  cbn [snd fst]. rewrite expand_var, Ht.
  cbn. by rewrite Htmp.
Qed.

Lemma exec_mktemp (st : Bash.state) (mk ext : string) :
  Bash.plain_word mk = true →
  ext ∈ [EmptyString; ".nix"; ".sh"; ".py"] →
  Bash.exec tmp tools st
    {| Bash.argv := [[Bash.WC false "t"; Bash.WC false "=";
                      Bash.WSubst (mk +:+ " --suffix=" +:+ ext)]];
       Bash.redirs := []; Bash.or_true := false |}
  = Some (false, {| Bash.files := <[tmp := EmptyString]> (Bash.files st);
                    Bash.var_t := tmp;
                    Bash.written := Bash.written st;
                    Bash.stdin := Bash.stdin st |}).
Proof.
  intros Hmk Hext. unfold Bash.exec.
  cbn [Bash.assignment Bash.argv Bash.redirs Bash.or_true].
  change (Ascii.eqb "t" "t" && Ascii.eqb "=" "=") with true. cbv iota.
  by rewrite mktemp_call_script, Htmp.
Qed.

Lemma exec_cat (st : Bash.state) :
  Bash.var_t st = tmp →
  Bash.exec tmp tools st
    {| Bash.argv := [Bash.unquoted "cat"; [Bash.WVarT]];
       Bash.redirs := []; Bash.or_true := false |}
  = Some (false,
          {| Bash.files := Bash.files st;
             Bash.var_t := tmp;
             Bash.written :=
               Bash.written st ++
               match Bash.files st !! tmp with
               | Some content => [(Sh.Stdout, content)]
               | None =>
                   [(Sh.Stderr,
                     "cat: " +:+ tmp +:+ ": No such file or directory")]
               end;
             Bash.stdin := Bash.stdin st |}).
Proof.
  intros Ht. unfold Bash.exec.
  cbn [Bash.assignment Bash.argv Bash.redirs Bash.or_true].
  cbn [mapM]. rewrite expand_unquoted, expand_var, Ht.
  cbn. by rewrite Htmp.
Qed.

Lemma exec_rm (st : Bash.state) :
  Bash.var_t st = tmp →
  Bash.exec tmp tools st
    {| Bash.argv := [Bash.unquoted "rm"; [Bash.WVarT]];
       Bash.redirs := []; Bash.or_true := false |}
  = Some (false,
          {| Bash.files := delete tmp (Bash.files st);
             Bash.var_t := tmp;
             Bash.written :=
               Bash.written st ++
               match Bash.files st !! tmp with
               | Some _ => []
               | None => [(Sh.Stderr, "rm: cannot remove " +:+ tmp)]
               end;
             Bash.stdin := Bash.stdin st |}).
Proof.
  intros Ht. unfold Bash.exec.
  cbn [Bash.assignment Bash.argv Bash.redirs Bash.or_true].
  cbn [mapM]. rewrite expand_unquoted, expand_var, Ht.
  cbn. by rewrite Htmp.
Qed.

Lemma routed_to_stderr (w : list (Sh.stream * string)) :
  Bash.routed (Some Sh.Stderr, Some Sh.Stderr) w
  = map (λ p, (Sh.Stderr, p.2)) w.
Proof.
  unfold Bash.routed. induction w as [|[[] x] w IH]; [done|..];
    cbn [omap list_omap map fst snd fmap option_fmap option_map];
    by rewrite <- IH.
Qed.

Lemma routed_to_null (w : list (Sh.stream * string)) :
  Bash.routed (None, None) w = [].
Proof.
  unfold Bash.routed. induction w as [|[[] x] w IH]; [done|..];
    cbn [omap list_omap fst snd fmap option_fmap option_map]; exact IH.
Qed.

Lemma routed_script (r : Sh.redirection) (t : string)
    (w : list (Sh.stream * string)) :
  (rs ← mapM (Bash.expand_target t) (script_redirs r);
   d ← Bash.route rs (Some Sh.Stdout, Some Sh.Stderr);
   Some (Bash.routed d w))
  = Some (Sh.apply_redirection r w).
Proof.
  destruct r.
  - change (Some (Bash.routed (Some Sh.Stderr, Some Sh.Stderr) w)
            = Some (Sh.apply_redirection Sh.OutToErr w)).
    by rewrite routed_to_stderr.
  - change (Some (Bash.routed (None, None) w)
            = Some (Sh.apply_redirection Sh.AllToNull w)).
    by rewrite routed_to_null.
Qed.

Lemma exec_tool (st : Bash.state) (command : string) (opts : list string)
    (r : Sh.redirection) :
  Bash.var_t st = tmp →
  Bash.plain_path command = true →
  Bash.exec tmp tools st
    {| Bash.argv := Bash.unquoted command :: (Bash.quoted <$> opts)
                      ++ [[Bash.WVarT]];
       Bash.redirs := script_redirs r; Bash.or_true := true |}
  = let o := tools command (opts ++ [tmp]) (Bash.files st) in
    Some (false,
          {| Bash.files := Sh.files_after o;
             Bash.var_t := tmp;
             Bash.written :=
               Bash.written st ++ Sh.apply_redirection r (Sh.writes o);
             Bash.stdin := Bash.stdin st |}).
Proof.
  intros Ht [[Hne Hc]%andb_prop Hsl%bool_decide_eq_true_1]%andb_prop.
  destruct (plain_chars _ Hc) as (_ & _ & _ & Heq).
  assert (Bash.assignment
            {| Bash.argv := Bash.unquoted command :: (Bash.quoted <$> opts)
                              ++ [[Bash.WVarT]];
               Bash.redirs := script_redirs r; Bash.or_true := true |}
          = None) as Has by (by destruct r).
  assert (mapM (Bash.expand (Bash.var_t st))
            (Bash.unquoted command :: (Bash.quoted <$> opts) ++ [[Bash.WVarT]])
          = Some (command :: opts ++ [tmp])) as Hargs.
  { apply mapM_Some. constructor; [apply expand_unquoted|].
    apply Forall2_app.
    - apply Forall2_fmap_l, Forall_Forall2_diag, Forall_forall.
      intros o _. apply expand_quoted.
    - constructor; [|constructor]. by rewrite expand_var, Ht. }
  assert (existsb Bash.unquoted_eq (Bash.unquoted command) = false) as Hnoeq.
  { clear -Heq. unfold free_of in Heq. unfold Bash.unquoted.
    induction command as [|a s IH]; [done|].
    cbn [list_ascii_of_string fmap list_fmap existsb Bash.unquoted_eq] in *.
    apply not_elem_of_cons in Heq as [Ha Hs].
    destruct (Ascii.eqb a "=") eqn:E; [apply Ascii.eqb_eq in E; congruence|].
    by apply IH. }
  assert (∀ b, "/"%char ∉ list_ascii_of_string b →
               bool_decide (command = b) = false) as Hnot.
  { intros b Hb. apply bool_decide_eq_false. by intros ->. }
  unfold Bash.exec. rewrite Has.
  cbn [Bash.argv Bash.redirs Bash.or_true]. rewrite Hargs.
  pose proof (routed_script r (Bash.var_t st)
                (Sh.writes (tools command (opts ++ [tmp]) (Bash.files st))))
    as Hroute.
  destruct (mapM (Bash.expand_target (Bash.var_t st)) (script_redirs r))
    as [rs|]; [|done].
  cbn [mbind option_bind head default from_option id] in *. rewrite Hnoeq.
  rewrite !Hnot by (cbn; rewrite !not_elem_of_cons; repeat split; try done;
                    apply not_elem_of_nil).
  rewrite (bool_decide_eq_true_2 _ Hsl).
  destruct (Bash.route rs (Some Sh.Stdout, Some Sh.Stderr)) as [d|]; [|done].
  cbn [mbind option_bind] in *. injection Hroute as ->. by rewrite Ht.
Qed.
End exec_script.

(** For plain words, the run of the text of the script is the run of its
    five commands one after the other. *)
Lemma run_script (env : gmap string string) (name command : string)
    (options : list string) (mode : string) (input tmp : string)
    (tools : string → Sh.tool) (fs : gmap string string) :
  Bash.plain_word (mktemp_cmd env) = true →
  Bash.plain_path command = true →
  Forall (λ o, Bash.dq_safe o = true) options →
  Bash.file_path tmp = true →
  Bash.run tmp tools input fs
    (Sh.render (inline_script env name command options mode))
  = Some (Sh.run input tmp tools fs
            (inline_script env name command options mode)).
Proof.
  intros Hmk Hcmd Hopts Htmp. unfold Bash.run.
  pose proof Hcmd as [Hword _]%andb_prop.
  rewrite lex_script by done. cbn [mbind option_bind].
  rewrite parse_script. cbn [mbind option_bind].
  unfold script_commands. cbn [Bash.exec_list].
  rewrite (exec_mktemp tmp tools Htmp _ _ _ Hmk (ext_cases name)).
  cbn [Bash.exec_list].
  rewrite (exec_read_stdin tmp tools Htmp) by done.
  cbn [Bash.exec_list].
  rewrite (exec_tool tmp tools) by done. cbv zeta.
  cbn [Bash.exec_list].
  rewrite (exec_cat tmp tools Htmp) by done.
  cbn [Bash.exec_list].
  rewrite (exec_rm tmp tools Htmp) by done.
  reflexivity.
Qed.

(** ** The wrapper script, run from its text *)

(** C3 at a failing input.  [deadnix] is a wrapped tool; with the option
    [a"; exit 0; "] the double quote inside the option closes the quotes the
    script puts around it, the shell reads [exit 0] as a command of its own
    and leaves before [rm]: the temporary file stays behind with the input
    in it, the tool has run without its redirection, and the content is
    never printed. *)
Theorem temp_file_left_behind :
  let options := ["a" +:+ dq +:+ "; exit 0; " +:+ dq] in
  let tmp := "/tmp/tmp.k3J9.nix" in
  ∃ script w,
    classify "deadnix" = WrappedEdit
    ∧ get_stdin_command ∅ "deadnix" "/nix/store/abc-deadnix/bin/deadnix"
        options (wrapper_type_of "deadnix")
      = ["bash"; "-c"; script]
    ∧ Bash.run tmp (λ _, reporting_tool) "x = 1" ∅ script = Some w
    ∧ Sh.files w !! tmp = Some "x = 1"
    ∧ Sh.written w = [(Sh.Stdout, "SC2086: quote this"); (Sh.Stderr, "note")].
Proof.
  intros options tmp. eexists _, _.
  split; [reflexivity|]. split; [reflexivity|].
  split; [vm_compute; reflexivity|]. split; reflexivity.
Qed.

(** X18. For a command given by a plain path and options that stand for
    themselves between double quotes, the script of either mode runs to its
    end and ends with the temporary file gone, whatever the wrapped tool
    does to the files and whether it succeeds or fails. *)
Theorem temp_file_removed (env : gmap string string)
    (name command : string) (options : list string) (mode : string)
    (input tmp : string) (tools : string → Sh.tool) (fs : gmap string string) :
  Bash.plain_word (mktemp_cmd env) = true →
  Bash.plain_path command = true →
  Forall (λ o, Bash.dq_safe o = true) options →
  Bash.file_path tmp = true →
  ∃ script w,
    get_inline_command env name command options mode = ["bash"; "-c"; script]
    ∧ Bash.run tmp tools input fs script = Some w
    ∧ Sh.files w !! tmp = None.
Proof.
  intros Hmk Hcmd Hopts Htmp. eexists _, _.
  split; [apply get_inline_command_render|].
  split; [by apply run_script|].
  rewrite run_inline_script. cbn [Sh.files]. apply lookup_delete_eq.
Qed.

Lemma temp_file_removed_witness :
  ∃ script w,
    get_inline_command ∅ "deadnix" "/nix/store/abc-deadnix/bin/deadnix"
      ["--edit"; "--quiet"] "edit" = ["bash"; "-c"; script]
    ∧ Bash.run "/tmp/tmp.k3J9.nix" (λ _, fixing_tool) "x = 1" ∅ script
      = Some w
    ∧ Sh.files w !! "/tmp/tmp.k3J9.nix" = None.
Proof.
  apply (temp_file_removed ∅ "deadnix" "/nix/store/abc-deadnix/bin/deadnix"
           ["--edit"; "--quiet"] "edit" "x = 1" "/tmp/tmp.k3J9.nix"
           (λ _, fixing_tool) ∅).
  - reflexivity.
  - reflexivity.
  - repeat constructor.
  - reflexivity.
Defined.

(** X11. In edit mode, for a command given by a plain path and options that
    stand for themselves between double quotes, the script writes the
    content of the temporary file as the tool left it to standard output
    and nothing else anywhere: what the tool itself printed, on either
    stream, is dropped. *)
Theorem edit_wrapper_emits_edited_file (env : gmap string string)
    (name command : string) (options : list string) (mode : string)
    (input tmp content : string) (tools : string → Sh.tool)
    (fs : gmap string string) :
  Bash.plain_word (mktemp_cmd env) = true →
  Bash.plain_path command = true →
  Forall (λ o, Bash.dq_safe o = true) options →
  Bash.file_path tmp = true →
  mode ≠ "passthrough" →
  Sh.files_after
    (tools command (inline_filtered_opts options ++ [tmp])
       (<[tmp := input]> (<[tmp := EmptyString]> fs))) !! tmp = Some content →
  ∃ script w,
    get_inline_command env name command options mode = ["bash"; "-c"; script]
    ∧ Bash.run tmp tools input fs script = Some w
    ∧ Sh.written w = [(Sh.Stdout, content)].
Proof.
  intros Hmk Hcmd Hopts Htmp Hmode Hfile. eexists _, _.
  split; [apply get_inline_command_render|].
  split; [by apply run_script|].
  rewrite run_inline_script. cbn [Sh.written].
  rewrite Hfile. by rewrite decide_False.
Qed.

Lemma edit_wrapper_emits_edited_file_witness :
  ∃ script w,
    get_inline_command ∅ "deadnix" "/nix/store/abc-deadnix/bin/deadnix"
      ["--edit"] "edit" = ["bash"; "-c"; script]
    ∧ Bash.run "/tmp/tmp.k3J9.nix" (λ _, fixing_tool) "x = 1" ∅ script
      = Some w
    ∧ Sh.written w = [(Sh.Stdout, "fixed")].
Proof.
  apply (edit_wrapper_emits_edited_file ∅ "deadnix"
           "/nix/store/abc-deadnix/bin/deadnix" ["--edit"] "edit" "x = 1"
           "/tmp/tmp.k3J9.nix" "fixed" (λ _, fixing_tool) ∅).
  - reflexivity.
  - reflexivity.
  - repeat constructor.
  - reflexivity.
  - discriminate.
  - reflexivity.
Defined.

(** X12. In passthrough mode, for a command given by a plain path and
    options that stand for themselves between double quotes, everything the
    tool printed, on either stream, reaches the diagnostic stream in the
    order it was printed, before the content of the temporary file goes to
    standard output. *)
Theorem passthrough_wrapper_reports_on_stderr (env : gmap string string)
    (name command : string) (options : list string)
    (input tmp content : string) (tools : string → Sh.tool)
    (fs : gmap string string) :
  Bash.plain_word (mktemp_cmd env) = true →
  Bash.plain_path command = true →
  Forall (λ o, Bash.dq_safe o = true) options →
  Bash.file_path tmp = true →
  let o := tools command (inline_filtered_opts options ++ [tmp])
             (<[tmp := input]> (<[tmp := EmptyString]> fs)) in
  Sh.files_after o !! tmp = Some content →
  ∃ script w,
    get_inline_command env name command options "passthrough"
    = ["bash"; "-c"; script]
    ∧ Bash.run tmp tools input fs script = Some w
    ∧ Sh.written w
      = map (λ p, (Sh.Stderr, p.2)) (Sh.writes o) ++ [(Sh.Stdout, content)].
Proof.
  intros Hmk Hcmd Hopts Htmp o Hfile. eexists _, _.
  split; [apply get_inline_command_render|].
  split; [by apply run_script|].
  rewrite run_inline_script. cbn [Sh.written].
  fold o. by rewrite Hfile.
Qed.

Lemma passthrough_wrapper_reports_on_stderr_witness :
  ∃ script w,
    get_inline_command ∅ "shellcheck" "/nix/store/abc/bin/shellcheck"
      ["--severity=warning"] "passthrough" = ["bash"; "-c"; script]
    ∧ Bash.run "/tmp/tmp.Qw2.sh" (λ _, reporting_tool) "echo $x" ∅ script
      = Some w
    ∧ Sh.written w
      = [(Sh.Stderr, "SC2086: quote this"); (Sh.Stderr, "note");
         (Sh.Stdout, "echo $x")].
Proof.
  apply (passthrough_wrapper_reports_on_stderr ∅ "shellcheck"
           "/nix/store/abc/bin/shellcheck" ["--severity=warning"]
           "echo $x" "/tmp/tmp.Qw2.sh" "echo $x" (λ _, reporting_tool) ∅).
  - reflexivity.
  - reflexivity.
  - repeat constructor.
  - reflexivity.
  - reflexivity.
Defined.
